(** * Ableton VST Auditor: a shallow embedding of [ableton_vst_audit.py]

    The development follows the class [AbletonVSTAuditor]:
    - a Python [str] is the list of its code points, so that [len] is the
      length of the list, slices and comparisons go by code point, and
      [str.strip] removes the white space of the whole of Unicode;
    - the insertion-ordered dictionaries whose iteration order reaches the
      report ([vst_usage], [project_vsts]) are association lists with unique
      keys, dictionaries that are only looked up ([vst_manufacturers],
      [local_manufacturers]) are [gmap]s;
    - what the interpreter and the operating system decide is gathered in
      two classes: [Platform] ([str.lower], [os.path], the iteration order
      of a [set]) and [FileSystem] ([os.walk], [gzip] and [ElementTree]). *)

From Stdlib Require Import Ascii NArith DecimalString.
From stdpp Require Import base option list strings gmap.

(** ** Python strings *)

Abbreviation str := (list N).

#[global] Instance str_eq_dec : EqDecision str | 0 := _.
#[global] Instance str_countable : Countable str | 0 := _.

(** A literal of the source; its characters are ASCII. *)
Definition lit (s : string) : str := N_of_ascii <$> String.list_ascii_of_string s.

(** [ord(c)] for a one-character literal. *)
Definition ord (c : string) : N :=
  match c with
  | String a _ => N_of_ascii a
  | EmptyString => 0%N
  end.

Arguments lit : simpl never.
Arguments ord : simpl never.

Module PyStr.

(** Truth value of a [str]: non-empty. *)
Definition truthy (s : str) : bool :=
  match s with
  | [] => false
  | _ :: _ => true
  end.

(** [str.lower] on an ASCII character. *)
Definition ascii_lower (c : N) : N :=
  if ((65 <=? c) && (c <=? 90))%N then (c + 32)%N else c.

(** [c.isspace()]: the characters that [s.strip()] removes. *)
Definition is_space (c : N) : bool :=
  (((9 <=? c) && (c <=? 13)) || ((28 <=? c) && (c <=? 32))
   || (c =? 133) || (c =? 160) || (c =? 5760)
   || ((8192 <=? c) && (c <=? 8202))
   || (c =? 8232) || (c =? 8233) || (c =? 8239) || (c =? 8287)
   || (c =? 12288))%N.

Fixpoint lstrip (s : str) : str :=
  match s with
  | [] => []
  | c :: r => if is_space c then lstrip r else s
  end.

Fixpoint rstrip (s : str) : str :=
  match s with
  | [] => []
  | c :: r =>
      let r' := rstrip r in
      if is_space c && negb (truthy r') then [] else c :: r'
  end.

(** [s.strip()] *)
Definition strip (s : str) : str := rstrip (lstrip s).

(** [s.startswith(p)] *)
Fixpoint startswith (p s : str) : bool :=
  match p, s with
  | [], _ => true
  | a :: p', b :: s' => if (a =? b)%N then startswith p' s' else false
  | _ :: _, [] => false
  end.

(** [s.endswith(suf)] *)
Fixpoint endswith (suf s : str) : bool :=
  bool_decide (s = suf) ||
  match s with
  | [] => false
  | _ :: r => endswith suf r
  end.

(** [sub in s] *)
Fixpoint contains (sub s : str) : bool :=
  startswith sub s ||
  match s with
  | [] => false
  | _ :: r => contains sub r
  end.

(** [s.replace(old, new)] for a non-empty [old]: occurrences are replaced
    from left to right and do not overlap. [skip] counts the characters of
    a replaced occurrence that are still to be dropped. *)
Fixpoint replace_from (old new : str) (skip : nat) (s : str) : str :=
  match s with
  | [] => []
  | c :: r =>
      match skip with
      | S k => replace_from old new k r
      | O =>
          if startswith old s
          then new ++ replace_from old new (length old - 1) r
          else c :: replace_from old new 0 r
      end
  end.

Definition replace (old new s : str) : str := replace_from old new 0 s.

(** [s.split(sep)] for a one-character separator: the list of the
    [sep]-free fields, never empty. *)
Fixpoint split (sep : N) (s : str) : list str :=
  match s with
  | [] => [[]]
  | c :: r =>
      if (c =? sep)%N then [] :: split sep r
      else match split sep r with
           | [] => [[c]]
           | f :: fs => (c :: f) :: fs
           end
  end.

(** [sep.join(l)] *)
Fixpoint join (sep : str) (l : list str) : str :=
  match l with
  | [] => []
  | [f] => f
  | f :: fs => f ++ sep ++ join sep fs
  end.

(** [x in l] for a list of strings. *)
Definition mem (x : str) (l : list str) : bool := bool_decide (x ∈ l).

(** [a <= b]: the order of the code points, a prefix before its
    extensions. *)
Fixpoint leb (a b : str) : bool :=
  match a, b with
  | [], _ => true
  | _ :: _, [] => false
  | x :: a', y :: b' =>
      if (x <? y)%N then true else if (y <? x)%N then false else leb a' b'
  end.

End PyStr.

(** ** The interpreter

    [lower] is [str.lower], whose tables are those of the Unicode version
    of the interpreter; on text of ASCII characters it maps [A]-[Z] and
    nothing else, and it maps every character to one character or more,
    so only the empty text becomes empty. [basename] and [path_join] are
    the functions of [os.path], and [list_of_set l] is [list(set(l))] in
    the order the interpreter chooses. *)
Class Platform : Type := {
  lower : str → str;
  lower_ascii : ∀ s, Forall (fun c => (c < 128)%N) s → lower s = PyStr.ascii_lower <$> s;
  lower_nonempty : ∀ s, lower s = [] → s = [];
  basename : str → str;
  path_join : str → str → str;
  list_of_set : list str → list str;
  list_of_set_NoDup : ∀ l, NoDup (list_of_set l);
  list_of_set_elem : ∀ l x, x ∈ list_of_set l ↔ x ∈ l
}.

(** ** The manufacturer heuristics *)

Definition skip_folders : list str :=
  lit <$>
  [ "vst"; "vst2"; "vst3"; "_effects"; "_effects 2"; "effects"; "mastering";
    "reverb"; "distortion"; "slowmo"; "delay"; "compression"; "eq"; "modulation";
    "d:"; "c:"; "program files"; "program files (x86)"; "x64"; "x86"; "plugins";
    "steinberg"; "vstplugins"; "64-bit"; "32-bit" ].

(** The table of [get_manufacturer_from_plugin_name], in the order of the
    dictionary literal (the order in which [items()] yields it). *)
Definition manufacturer_patterns : list (str * str) :=
  prod_map lit lit <$>
  [ ("tal-", "TAL-Software");
    ("labs", "Spitfire Audio");
    ("ozone", "iZotope");
    ("levels", "Mastering the Mix");
    ("rc-20", "XLN Audio");
    ("halftime", "Cable Guys");
    ("blackhole", "Eventide");
    ("decapitator", "Soundtoys");
    ("waveshell", "Waves");
    ("2getheraudio", "2getheraudio");
    ("cherry", "Cherry Audio") ].

Definition path_parts_of (dll_path : str) : list str :=
  PyStr.split (ord "/") (PyStr.replace (lit "\") (lit "/") dll_path).

Fixpoint first_pattern (table : list (str * str)) (plugin_lower : str)
  : option str :=
  match table with
  | [] => None
  | (pattern, manufacturer) :: table' =>
      if PyStr.contains pattern plugin_lower then Some manufacturer
      else first_pattern table' plugin_lower
  end.

Section Heuristics.
Context `{PF : Platform}.

(** The test of the inner loop of [extract_manufacturer_from_path]:
    [folder and folder.lower() not in skip_folders and len(folder) > 2]. *)
Definition folder_ok (folder : str) : bool :=
  PyStr.truthy folder
  && negb (PyStr.mem (lower folder) skip_folders)
  && (2 <? length folder).

(** [for j in range(i-1, -1, -1)]: [scan_back parts i] visits the indices
    [i-1], ..., [0] of [path_parts]. *)
Fixpoint scan_back (path_parts : list str) (i : nat) : option str :=
  match i with
  | O => None
  | S j =>
      let folder := PyStr.strip (default [] (path_parts !! j)) in
      if folder_ok folder then Some folder else scan_back path_parts j
  end.

(** [for i, part in enumerate(path_parts)]: [rest] is what is left to
    enumerate, [i] the index of its head. The loop ends at the first part
    that ends in [.dll] ([break]). *)
Fixpoint find_dll (path_parts rest : list str) (i : nat) : option str :=
  match rest with
  | [] => None
  | part :: rest' =>
      if PyStr.endswith (lit ".dll") (lower part)
      then scan_back path_parts i
      else find_dll path_parts rest' (S i)
  end.

Definition extract_manufacturer_from_path (dll_path : str) : option str :=
  if negb (PyStr.truthy dll_path) then None
  else let path_parts := path_parts_of dll_path in
       find_dll path_parts path_parts 0.

Definition get_manufacturer_from_plugin_name (plugin_name : str) : option str :=
  if negb (PyStr.truthy plugin_name) then None
  else first_pattern manufacturer_patterns (lower plugin_name).

End Heuristics.

(** ** Insertion-ordered dictionaries

    A Python [dict] keeps its keys in the order of their first insertion;
    assigning to a key that is present changes the value in place. *)

Module OrdDict.
Section Ops.
Context {V : Type}.

(** [d.get(k)] *)
Fixpoint get (k : str) (d : list (str * V)) : option V :=
  match d with
  | [] => None
  | (k', v) :: d' => if decide (k' = k) then Some v else get k d'
  end.

(** [d[k] = v] *)
Fixpoint set (k : str) (v : V) (d : list (str * V)) : list (str * V) :=
  match d with
  | [] => [(k, v)]
  | (k', v') :: d' =>
      if decide (k' = k) then (k, v) :: d' else (k', v') :: set k v d'
  end.

(** [d.keys()] *)
Definition keys (d : list (str * V)) : list str := d.*1.
End Ops.
End OrdDict.

(** ** Parsed projects

    An [xml.etree.ElementTree.Element]: tag, text, attributes in document
    order, children. *)

#[warnings="-register-all"]
Inductive Element : Type :=
  Elem (tag : str) (text : option str)
       (attrib : list (str * str)) (children : list Element).

Definition tag (e : Element) : str := let 'Elem t _ _ _ := e in t.
Definition text (e : Element) : option str := let 'Elem _ x _ _ := e in x.
Definition attrib (e : Element) : list (str * str) := let 'Elem _ _ a _ := e in a.
Definition children (e : Element) : list Element := let 'Elem _ _ _ c := e in c.

(** [root.iter()]: the element, then its descendants, in document order. *)
Fixpoint iter (e : Element) : list Element :=
  match e with
  | Elem _ _ _ cs =>
      e :: (fix iter_all (l : list Element) : list Element :=
              match l with
              | [] => []
              | c :: l' => iter c ++ iter_all l'
              end) cs
  end.

(** [elem.find(name)]: the first child with that tag. *)
Definition find (name : str) (e : Element) : option Element :=
  List.find (fun c => bool_decide (tag c = name)) (children e).

(** What is on disk: the entries [(root, dirs, files)] of [os.walk], and
    [read_xml], which is [gzip.open(...).read()] followed by
    [ET.fromstring], [None] when either raises. *)
Class FileSystem : Type := {
  os_walk : str → list (str * list str * list str);
  read_xml : str → option Element
}.

(** The two locals of [parse_als_file]. *)
Record Walk : Type := {
  vsts_found : list str;
  local_manufacturers : gmap str str
}.

(** [a or b] where [a] is [None] or a [str]. *)
Definition or_else (a : option str) (b : str) : str :=
  match a with
  | Some s => if PyStr.truthy s then s else b
  | None => b
  end.

Section Parser.
Context `{PF : Platform}.

(** The body shared by the element-text check and the attribute loop, for
    a value [raw] that is present: a value mentioning [.dll] names a
    plugin by its base name; the path heuristic fills the file-local
    table unless the name is already there. *)
Definition note_dll (raw : str) (w : Walk) : Walk :=
  if PyStr.truthy raw && PyStr.contains (lit ".dll") (lower raw) then
    let dll_path := PyStr.strip raw in
    let dll_name := basename dll_path in
    if PyStr.truthy dll_name && negb (PyStr.mem dll_name (vsts_found w)) then
      let found := vsts_found w ++ [dll_name] in
      match extract_manufacturer_from_path dll_path with
      | Some manufacturer =>
          if PyStr.truthy manufacturer
             && negb (bool_decide (is_Some (local_manufacturers w !! dll_name)))
          then {| vsts_found := found;
                  local_manufacturers := <[dll_name := manufacturer]> (local_manufacturers w) |}
          else {| vsts_found := found; local_manufacturers := local_manufacturers w |}
      | None => {| vsts_found := found; local_manufacturers := local_manufacturers w |}
      end
    else w
  else w.

Definition note_text (e : Element) (w : Walk) : Walk :=
  match text e with
  | Some t => note_dll t w
  | None => w
  end.

Definition note_attribs (e : Element) (w : Walk) : Walk :=
  fold_left (fun w kv => note_dll kv.2 w) (attrib e) w.

(** [plugin_name.lower() in vst.lower() or vst.lower() in plugin_name.lower()] *)
Definition name_match (plugin_name vst : str) : bool :=
  PyStr.contains (lower plugin_name) (lower vst)
  || PyStr.contains (lower vst) (lower plugin_name).

(** The loop over [vsts_found] of the browser-path rule. *)
Definition associate (manufacturer plugin_name : str) (found : list str)
    (local : gmap str str) : gmap str str :=
  fold_left (fun local vst =>
               if name_match plugin_name vst then <[vst := manufacturer]> local
               else local) found local.

Definition note_browser_path (e : Element) (w : Walk) : Walk :=
  if bool_decide (tag e = lit "BrowserContentPath") then
    match find (lit "Value") e with
    | Some value_elem =>
        match text value_elem with
        | Some browser_path =>
            if PyStr.truthy browser_path
               && PyStr.contains (lit "Plugins#VST") browser_path
               && PyStr.contains (lit ":") browser_path
            then
              let parts := PyStr.split (ord ":") browser_path in
              if 4 <=? length parts then
                let manufacturer :=
                  PyStr.replace (lit "%20") (lit " ") (default [] (parts !! 2)) in
                let plugin_name :=
                  PyStr.replace (lit "%20") (lit " ") (default [] (parts !! 3)) in
                {| vsts_found := vsts_found w;
                   local_manufacturers :=
                     associate manufacturer plugin_name (vsts_found w)
                               (local_manufacturers w) |}
              else w
            else w
        | None => w
        end
    | None => w
    end
  else w.

Definition plugin_info_tags : list str :=
  [ lit "VstPluginInfo"; lit "Vst3PluginInfo"; lit "PluginDesc" ].

Definition append_found (name : str) (w : Walk) : Walk :=
  {| vsts_found := vsts_found w ++ [name];
     local_manufacturers := local_manufacturers w |}.

Definition note_child_name (w : Walk) (child : Element) : Walk :=
  match text child with
  | Some t =>
      if PyStr.truthy t && negb (PyStr.endswith (lit ".dll") t)
         && (length t <? 100)
      then let plugin_name := PyStr.strip t in
           if PyStr.truthy plugin_name
              && negb (PyStr.mem plugin_name (vsts_found w))
           then append_found plugin_name w else w
      else w
  | None => w
  end.

Definition note_plugin_info (e : Element) (w : Walk) : Walk :=
  if PyStr.mem (tag e) plugin_info_tags then
    let w :=
      match OrdDict.get (lit "Name") (attrib e) with
      | Some name =>
          if PyStr.truthy name && negb (PyStr.mem name (vsts_found w))
             && negb (PyStr.endswith (lit ".dll") name)
          then append_found name w else w
      | None => w
      end in
    fold_left note_child_name (children e) w
  else w.

(** One iteration of [for elem in root.iter()]. *)
Definition visit (w : Walk) (e : Element) : Walk :=
  note_plugin_info e (note_browser_path e (note_attribs e (note_text e w))).

Definition empty_walk : Walk :=
  {| vsts_found := []; local_manufacturers := ∅ |}.

Definition walk (root : Element) : Walk := fold_left visit (iter root) empty_walk.

(** One iteration of the loop that updates the global mapping. *)
Definition commit (local : gmap str str) (manufacturers : gmap str str)
    (vst : str) : gmap str str :=
  if bool_decide (is_Some (manufacturers !! vst)) then manufacturers
  else
    let manufacturer :=
      or_else (local !! vst)
              (or_else (get_manufacturer_from_plugin_name vst) (lit "Unknown")) in
    <[vst := manufacturer]> manufacturers.

End Parser.

(** ** The auditor *)

(** The attributes of [AbletonVSTAuditor]. [progress_callback] records
    whether a callback is installed and [progress_log] the messages it has
    received, oldest first. *)
Record Auditor : Type := {
  vst_usage : list (str * nat);
  project_vsts : list (str * list str);
  vst_manufacturers : gmap str str;
  processed_files : nat;
  total_files : nat;
  current_file : str;
  progress_callback : bool;
  progress_log : list str
}.

(** [AbletonVSTAuditor()] *)
Definition init : Auditor :=
  {| vst_usage := []; project_vsts := []; vst_manufacturers := ∅;
     processed_files := 0; total_files := 0; current_file := [];
     progress_callback := false; progress_log := [] |}.

Definition set_vst_usage (u : list (str * nat)) (s : Auditor) : Auditor :=
  {| vst_usage := u; project_vsts := project_vsts s;
     vst_manufacturers := vst_manufacturers s;
     processed_files := processed_files s; total_files := total_files s;
     current_file := current_file s; progress_callback := progress_callback s;
     progress_log := progress_log s |}.

Definition set_project_vsts (p : list (str * list str)) (s : Auditor) : Auditor :=
  {| vst_usage := vst_usage s; project_vsts := p;
     vst_manufacturers := vst_manufacturers s;
     processed_files := processed_files s; total_files := total_files s;
     current_file := current_file s; progress_callback := progress_callback s;
     progress_log := progress_log s |}.

Definition set_vst_manufacturers (m : gmap str str) (s : Auditor) : Auditor :=
  {| vst_usage := vst_usage s; project_vsts := project_vsts s;
     vst_manufacturers := m;
     processed_files := processed_files s; total_files := total_files s;
     current_file := current_file s; progress_callback := progress_callback s;
     progress_log := progress_log s |}.

Definition set_processed_files (n : nat) (s : Auditor) : Auditor :=
  {| vst_usage := vst_usage s; project_vsts := project_vsts s;
     vst_manufacturers := vst_manufacturers s;
     processed_files := n; total_files := total_files s;
     current_file := current_file s; progress_callback := progress_callback s;
     progress_log := progress_log s |}.

Definition set_total_files (n : nat) (s : Auditor) : Auditor :=
  {| vst_usage := vst_usage s; project_vsts := project_vsts s;
     vst_manufacturers := vst_manufacturers s;
     processed_files := processed_files s; total_files := n;
     current_file := current_file s; progress_callback := progress_callback s;
     progress_log := progress_log s |}.

Definition set_current_file (f : str) (s : Auditor) : Auditor :=
  {| vst_usage := vst_usage s; project_vsts := project_vsts s;
     vst_manufacturers := vst_manufacturers s;
     processed_files := processed_files s; total_files := total_files s;
     current_file := f; progress_callback := progress_callback s;
     progress_log := progress_log s |}.

Definition update_progress (message : str) (s : Auditor) : Auditor :=
  if progress_callback s then
    {| vst_usage := vst_usage s; project_vsts := project_vsts s;
       vst_manufacturers := vst_manufacturers s;
       processed_files := processed_files s; total_files := total_files s;
       current_file := current_file s; progress_callback := progress_callback s;
       progress_log := progress_log s ++ [message] |}
  else s.

(** [str(n)] and [f"{n}"] for a natural number. *)
Definition str_of_nat (n : nat) : str :=
  lit (NilEmpty.string_of_uint (Nat.to_uint n)).

(** [Counter.__getitem__]: a missing key counts 0. *)
Definition count_of (vst : str) (usage : list (str * nat)) : nat :=
  default 0 (OrdDict.get vst usage).

(** [self.vst_usage[vst] += 1] *)
Definition increment (usage : list (str * nat)) (vst : str) : list (str * nat) :=
  OrdDict.set vst (count_of vst usage + 1) usage.

Section Scan.
Context `{PF : Platform} `{FS : FileSystem}.

(** The files of one [os.walk] entry that qualify, joined to its root. *)
Definition als_in (entry : str * list str * list str) : list str :=
  let '(root, _, files) := entry in
  path_join root <$> filter (fun file => PyStr.endswith (lit ".als") (lower file) = true) files.

Definition find_als_files (directory : str) : list str :=
  mbind als_in (os_walk directory).

(** What the walk over the document of [file_path] collects in
    [vsts_found]; nothing when the file cannot be read or parsed. *)
Definition found_in (file_path : str) : list str :=
  match read_xml file_path with
  | Some root => vsts_found (walk root)
  | None => []
  end.

(** [parse_als_file]: the list returned, and the auditor afterwards. The
    exception handler encloses all of the [try] block; the only calls in
    it that can raise are the ones that open, read and parse the file,
    before anything has been found. *)
Definition parse_als_file (file_path : str) (s : Auditor) : list str * Auditor :=
  match read_xml file_path with
  | Some root =>
      let w := walk root in
      let manufacturers :=
        fold_left (commit (local_manufacturers w)) (vsts_found w)
                  (vst_manufacturers s) in
      (list_of_set (vsts_found w), set_vst_manufacturers manufacturers s)
  | None => (list_of_set [], s)
  end.

(** The body of [for file_path in als_files]. *)
Definition scan_file (s : Auditor) (file_path : str) : Auditor :=
  let s := set_current_file (basename file_path) s in
  let s := update_progress (lit "Processing: " ++ current_file s) s in
  let '(vsts, s) := parse_als_file file_path s in
  let s :=
    match vsts with
    | [] => s
    | _ :: _ =>
        let s := set_project_vsts (OrdDict.set file_path vsts (project_vsts s)) s in
        set_vst_usage (fold_left increment vsts (vst_usage s)) s
    end in
  set_processed_files (processed_files s + 1) s.

Definition scan_directory (directory : str) (s : Auditor) : Auditor :=
  let s := set_vst_usage [] s in
  let s := set_project_vsts [] s in
  let s := set_processed_files 0 s in
  let s := update_progress (lit "Finding .als files...") s in
  let als_files := find_als_files directory in
  let s := set_total_files (length als_files) s in
  match als_files with
  | [] => update_progress (lit "No .als files found in directory") s
  | _ :: _ =>
      let s := update_progress
                 (lit "Found " ++ str_of_nat (total_files s)
                  ++ lit " .als files. Starting scan...") s in
      let s := fold_left scan_file als_files s in
      update_progress
        (lit "Scan complete! Found " ++ str_of_nat (length (vst_usage s))
         ++ lit " unique VSTs") s
  end.

End Scan.

(** ** The report *)

Definition nl : str := [10%N].

(** The bullet of the list sections, U+2022. *)
Definition bullet : str := [8226%N].

(** [s * n] *)
Fixpoint repeat_str (s : str) (n : nat) : str :=
  match n with
  | O => []
  | S n' => s ++ repeat_str s n'
  end.

(** [f"{s:<width}"] *)
Definition ljust (width : nat) (s : str) : str :=
  s ++ repeat_str (lit " ") (width - length s).

(** [f"{n:3d}"] *)
Definition fmt_3d (n : nat) : str :=
  let digits := str_of_nat n in
  repeat_str (lit " ") (3 - length digits) ++ digits.

(** [sorted] is stable; so is insertion from the right with a test that
    lets an element stay in front of its equals. *)
Fixpoint insert_by {A : Type} (le : A → A → bool) (x : A) (l : list A) : list A :=
  match l with
  | [] => [x]
  | y :: l' => if le x y then x :: l else y :: insert_by le x l'
  end.

Definition sort_by {A : Type} (le : A → A → bool) (l : list A) : list A :=
  foldr (insert_by le) [] l.

(** [Counter.most_common()]: by count, largest first, ties in the order of
    the counter. *)
Definition most_common (usage : list (str * nat)) : list (str * nat) :=
  sort_by (fun x y => y.2 <=? x.2) usage.

Definition concat_str (l : list str) : str := foldr app [] l.

Section Report.
Context `{PF : Platform}.

(** [self.vst_manufacturers.get(vst, "Unknown")] *)
Definition manufacturer_of (s : Auditor) (vst : str) : str :=
  default (lit "Unknown") (vst_manufacturers s !! vst).

Definition report_header (now : str) (s : Auditor) : str :=
  lit "ABLETON VST AUDIT REPORT" ++ nl
  ++ repeat_str (lit "=") 50 ++ nl
  ++ lit "Generated: " ++ now ++ nl
  ++ lit "Total Projects Scanned: " ++ str_of_nat (length (project_vsts s)) ++ nl
  ++ lit "Total Unique VSTs Found: " ++ str_of_nat (length (vst_usage s)) ++ nl ++ nl.

Definition usage_summary (s : Auditor) : str :=
  lit "VST USAGE SUMMARY (by frequency)" ++ nl
  ++ repeat_str (lit "-") 40 ++ nl
  ++ concat_str
        ((fun vc : str * nat =>
            fmt_3d vc.2 ++ lit "x  " ++ ljust 35 vc.1
            ++ lit " [" ++ manufacturer_of s vc.1 ++ lit "]" ++ nl)
         <$> most_common (vst_usage s)).

(** The [defaultdict(list)] built by the second section. *)
Definition by_manufacturer (s : Auditor) : list (str * list (str * nat)) :=
  fold_left
    (fun d vst =>
       let manufacturer := manufacturer_of s vst in
       OrdDict.set manufacturer
         (default [] (OrdDict.get manufacturer d) ++ [(vst, count_of vst (vst_usage s))]) d)
    (OrdDict.keys (vst_usage s)) [].

Definition manufacturer_section (s : Auditor) : str :=
  nl ++ nl ++ lit "VSTS BY MANUFACTURER" ++ nl
  ++ repeat_str (lit "-") 30 ++ nl
  ++ concat_str
        ((fun manufacturer =>
            nl ++ manufacturer ++ lit ":" ++ nl
            ++ concat_str
                  ((fun vc : str * nat =>
                      lit "  " ++ bullet ++ lit " " ++ vc.1
                      ++ lit " (" ++ str_of_nat vc.2 ++ lit "x)" ++ nl)
                   <$> sort_by (fun x y : str * nat => PyStr.leb x.1 y.1)
                         (default [] (OrdDict.get manufacturer (by_manufacturer s)))))
         <$> sort_by PyStr.leb (OrdDict.keys (by_manufacturer s))).

Definition alphabetical_section (s : Auditor) : str :=
  nl ++ nl ++ lit "ALPHABETICAL VST LIST" ++ nl
  ++ repeat_str (lit "-") 30 ++ nl
  ++ concat_str
        ((fun vst =>
            bullet ++ lit " " ++ ljust 35 vst
            ++ lit " [" ++ manufacturer_of s vst ++ lit "]" ++ nl)
         <$> sort_by PyStr.leb (OrdDict.keys (vst_usage s))).

Definition project_section (s : Auditor) : str :=
  nl ++ nl ++ lit "PROJECT BREAKDOWN" ++ nl
  ++ repeat_str (lit "-") 25 ++ nl
  ++ concat_str
        ((fun pv : str * list str =>
            nl ++ basename pv.1 ++ lit ":" ++ nl
            ++ concat_str
                  ((fun vst =>
                      lit "  " ++ bullet ++ lit " " ++ ljust 35 vst
                      ++ lit " [" ++ manufacturer_of s vst ++ lit "]" ++ nl)
                   <$> sort_by PyStr.leb (list_of_set pv.2)))
         <$> project_vsts s).

Definition no_plugins_line : str :=
  lit "No VST plugins found in the scanned projects." ++ nl.

(** [generate_report]: what is written to [output_file], [now] being
    [datetime.now().strftime('%Y-%m-%d %H:%M:%S')]. *)
Definition generate_report (now : str) (s : Auditor) : str :=
  report_header now s
  ++ match vst_usage s with
      | _ :: _ =>
          usage_summary s ++ manufacturer_section s
          ++ alphabetical_section s ++ project_section s
      | [] => no_plugins_line
      end.

End Report.

(** ** A concrete runtime

    POSIX path functions, a [set] that lists each element at its last
    occurrence, and a file system given by its [os.walk] entries and by the
    documents that parse. The fixtures are ASCII text, for which [lower]
    is the case mapping of [A]-[Z]; [posix] leaves every other character
    as it is, which [str.lower] does not. *)

Fixpoint posix_basename_from (acc s : str) : str :=
  match s with
  | [] => acc
  | c :: r =>
      if (c =? ord "/")%N then posix_basename_from r r else posix_basename_from acc r
  end.

(** [posixpath.basename]: what follows the last slash. *)
Definition posix_basename (p : str) : str := posix_basename_from p p.

(** [posixpath.join] of a directory and a file name. *)
Definition posix_join (a b : str) : str :=
  if PyStr.startswith (lit "/") b then b
  else if negb (PyStr.truthy a) || PyStr.endswith (lit "/") a then a ++ b
  else a ++ lit "/" ++ b.


Definition posix : Platform :=
  {| lower := fmap PyStr.ascii_lower;
     lower_ascii := fun s _ => eq_refl;
     lower_nonempty := fmap_nil_inv PyStr.ascii_lower;
     basename := posix_basename;
     path_join := posix_join;
     list_of_set := remove_dups;
     list_of_set_NoDup := NoDup_remove_dups;
     list_of_set_elem := fun l x => elem_of_remove_dups l x |}.

Definition disk
    (tree : list (str * list (str * list str * list str)))
    (documents : list (str * Element)) : FileSystem :=
  {| os_walk := fun directory => default [] (OrdDict.get directory tree);
     read_xml := fun file_path => OrdDict.get file_path documents |}.

(** Three projects and a file that is no project: the first uses a plugin
    of CompanyX on two tracks, the second names the same plugin without a
    folder, the third has it in a folder of CompanyY. *)
Definition widget_twice : Element :=
  Elem (lit "Ableton") None []
    [ Elem (lit "Track") None [] [ Elem (lit "Path") (Some (lit "CompanyX/Widget.dll")) [] [] ];
      Elem (lit "Track") None [] [ Elem (lit "Path") (Some (lit "CompanyX/Widget.dll")) [] [] ] ].

Definition widget_bare : Element :=
  Elem (lit "Ableton") None [] [ Elem (lit "PluginDevice") None [(lit "Path", lit "Widget.dll")] [] ].

Definition widget_rival : Element :=
  Elem (lit "Ableton") None [] [ Elem (lit "Path") (Some (lit "CompanyY/Widget.dll")) [] [] ].

Definition studio_documents : list (str * Element) :=
  [ (lit "projects/one.als", widget_twice);
    (lit "projects/sub/two.ALS", widget_bare);
    (lit "elsewhere/rival.als", widget_rival) ].

Definition studio : FileSystem :=
  disk
    [ (lit "projects",
       [ (lit "projects", [lit "sub"], [lit "one.als"; lit "broken.als"; lit "notes.txt"]);
         (lit "projects/sub", [], [lit "two.ALS"]) ]);
      (lit "elsewhere", [ (lit "elsewhere", [], [lit "rival.als"]) ]);
      (lit "empty", [ (lit "empty", [], []) ]) ]
    studio_documents.

(** The same studio once [broken.als] has been deleted. *)
Definition tidy_studio : FileSystem :=
  disk
    [ (lit "projects",
       [ (lit "projects", [lit "sub"], [lit "one.als"; lit "notes.txt"]);
         (lit "projects/sub", [], [lit "two.ALS"]) ]);
      (lit "elsewhere", [ (lit "elsewhere", [], [lit "rival.als"]) ]);
      (lit "empty", [ (lit "empty", [], []) ]) ]
    studio_documents.

(** A device that sits in the folder of one vendor and that the browser
    lists under another. *)
Definition serum_value : Element :=
  Elem (lit "Value") (Some (lit "query:Plugins#VST:Xfer%20Records:Serum")) [] [].

Definition serum_browser : Element := Elem (lit "BrowserContentPath") None [] [serum_value].

Definition serum_project : Element :=
  Elem (lit "Ableton") None []
    [ Elem (lit "Path") (Some (lit "Old Vendor/Serum.dll")) [] []; serum_browser ].

(** An auditor that has been used before: it has scanned [projects]. *)
Definition used_auditor : Auditor := @scan_directory posix studio (lit "projects") init.

(** ** The heuristics, as their description words them

    These predicates say what Rule A and Rule B are meant to compute; the
    theorems below relate them to the loops above. *)

(** The path with every backslash turned into a slash. *)
Definition forward_slashes (p : str) : str :=
  (fun c => if (c =? ord "\")%N then ord "/" else c) <$> p.

(** [parts] are the segments of [p] for both separator styles: joined by
    slashes they spell [p] up to the style of its separators, and no
    separator of either style is left inside a segment. *)
Definition segments (p : str) (parts : list str) : Prop :=
  PyStr.join (lit "/") parts = forward_slashes p
  ∧ ∀ part, part ∈ parts →
      PyStr.contains (lit "/") part = false ∧ PyStr.contains (lit "\") part = false.

(** Text of ASCII characters. *)
Definition ascii_text (s : str) : Prop := Forall (fun c => (c < 128)%N) s.

(** [s] contains [pattern] as a substring. *)
Definition has_substring (pattern s : str) : Prop :=
  ∃ pre post, s = pre ++ pattern ++ post.

Section RuleWords.
Context `{PF : Platform}.

Definition ends_in_dll (part : str) : Prop :=
  ∃ pre, lower part = pre ++ lit ".dll".

Definition qualifies (folder : str) : Prop :=
  folder ≠ []
  ∧ 2 < length folder
  ∧ lower folder ∉ skip_folders.

(** [i] is the index of the first segment that ends in [.dll]. *)
Definition first_dll (parts : list str) (i : nat) : Prop :=
  (∃ part, parts !! i = Some part ∧ ends_in_dll part)
  ∧ ∀ k part, k < i → parts !! k = Some part → ¬ ends_in_dll part.

Inductive rule_A (parts : list str) : option str → Prop :=
  | rule_A_no_dll :
      (∀ part, part ∈ parts → ¬ ends_in_dll part) →
      rule_A parts None
  | rule_A_no_folder i :
      first_dll parts i →
      (∀ k seg, k < i → parts !! k = Some seg → ¬ qualifies (PyStr.strip seg)) →
      rule_A parts None
  | rule_A_folder i j seg :
      first_dll parts i →
      j < i →
      parts !! j = Some seg →
      qualifies (PyStr.strip seg) →
      (∀ k seg', j < k → k < i → parts !! k = Some seg' →
                 ¬ qualifies (PyStr.strip seg')) →
      rule_A parts (Some (PyStr.strip seg)).

Inductive rule_B (plugin_name : str) : option str → Prop :=
  | rule_B_none :
      (∀ pattern vendor, (pattern, vendor) ∈ manufacturer_patterns →
                         ¬ has_substring pattern (lower plugin_name)) →
      rule_B plugin_name None
  | rule_B_first i pattern vendor :
      manufacturer_patterns !! i = Some (pattern, vendor) →
      has_substring pattern (lower plugin_name) →
      (∀ k pattern' vendor', k < i →
         manufacturer_patterns !! k = Some (pattern', vendor') →
         ¬ has_substring pattern' (lower plugin_name)) →
      rule_B plugin_name (Some vendor).

End RuleWords.

(** ** Counter and registry

    The counter agrees with the registry when every count is the number of
    registry entries that list the reference, and the counted references
    are those listed somewhere. *)
Definition consistent (usage : list (str * nat))
    (registry : list (str * list str)) : Prop :=
  (∀ p, count_of p usage
        = length (filter (fun entry : str * list str => p ∈ entry.2) registry))
  ∧ (∀ p, p ∈ OrdDict.keys usage ↔ ∃ path vsts, (path, vsts) ∈ registry ∧ p ∈ vsts).

(** ** The walk

    [vsts_found] grows, and only by names it does not hold yet. *)
Definition extends (w w' : Walk) : Prop :=
  (∀ x, x ∈ vsts_found w → x ∈ vsts_found w')
  ∧ (NoDup (vsts_found w) → NoDup (vsts_found w')).

(** ** Where a plugin reference comes from

    The three places of an element in which the walk looks for names: a
    text or attribute value that mentions [.dll], the [Name] attribute of a
    plugin-descriptor node, and the short texts of its children. *)

Definition ends_with (suffix s : str) : Prop := ∃ pre, s = pre ++ suffix.

Section Origins.
Context `{PF : Platform}.

Inductive names_plugin (e : Element) (name : str) : Prop :=
  | names_by_text raw :
      text e = Some raw →
      has_substring (lit ".dll") (lower raw) →
      name = basename (PyStr.strip raw) →
      names_plugin e name
  | names_by_attribute key raw :
      (key, raw) ∈ attrib e →
      has_substring (lit ".dll") (lower raw) →
      name = basename (PyStr.strip raw) →
      names_plugin e name
  | names_by_name_attribute :
      tag e ∈ plugin_info_tags →
      OrdDict.get (lit "Name") (attrib e) = Some name →
      ¬ ends_with (lit ".dll") name →
      names_plugin e name
  | names_by_child child raw :
      tag e ∈ plugin_info_tags →
      child ∈ children e →
      text child = Some raw →
      ¬ ends_with (lit ".dll") raw →
      length raw < 100 →
      name = PyStr.strip raw →
      names_plugin e name.

End Origins.

(** ** The file-local table and the commit *)

(** The keys of the table are among the references found. *)
Definition table_within (w : Walk) : Prop :=
  ∀ k, is_Some (local_manufacturers w !! k) → k ∈ vsts_found w.


(** What [commit] stores for a reference that is new to the mapping. *)
Definition resolved `{PF : Platform} (local : gmap str str) (vst : str) : str :=
  or_else (local !! vst) (or_else (get_manufacturer_from_plugin_name vst) (lit "Unknown")).


(** ** The registry *)

Section Registry.
Context `{PF : Platform} `{FS : FileSystem}.

(** The registry after the loop, entry by entry. *)
Definition registered (files : list str) (registry : list (str * list str)) : Prop :=
  NoDup (OrdDict.keys registry)
  ∧ ∀ path vsts,
      (path, vsts) ∈ registry
      ↔ path ∈ files ∧ vsts = list_of_set (found_in path) ∧ vsts ≠ [].


End Registry.

(** ** Order *)

(** Every element of [l] is related to all the elements after it. *)
Definition in_order {A : Type} (R : A → A → Prop) (l : list A) : Prop :=
  ∀ i j a b, i < j → l !! i = Some a → l !! j = Some b → R a b.

(** ** The command line, the result window and the example scripts

    The callers of the auditor. Of a run of [main] the model keeps the exit
    status and the report file that is written, of the window the text and
    the file, of the example scripts the lines that their own [print]
    calls write; what the auditor prints about unreadable files on the way
    is not part of it. Writing a report can fail: [can_write path] says
    whether [open(path, 'w')] succeeds; the writes to a file that is open
    are taken to succeed. *)

Class Writer : Type := {
  can_write : str → bool
}.

(** A file system on which exactly the files [paths] can be opened for
    writing. *)
Definition writable (paths : list str) : Writer :=
  {| can_write := fun path => PyStr.mem path paths |}.

Definition set_progress_callback (b : bool) (s : Auditor) : Auditor :=
  {| vst_usage := vst_usage s; project_vsts := project_vsts s;
     vst_manufacturers := vst_manufacturers s;
     processed_files := processed_files s; total_files := total_files s;
     current_file := current_file s; progress_callback := b;
     progress_log := progress_log s |}.

(** The namespace that [argparse] hands to [main]. *)
Record Args : Type := {
  cli : bool;
  directory : option str;
  output : str
}.

(** The exit status of [main] and the report, path and content, if one
    was written. *)
Record Outcome : Type := {
  exit_code : nat;
  written : option (str * str)
}.

(** [f"{n:2d}"] *)
Definition fmt_2d (n : nat) : str :=
  let digits := str_of_nat n in
  repeat_str (lit " ") (2 - length digits) ++ digits.

Section Callers.
Context `{PF : Platform} `{FS : FileSystem} `{WR : Writer}.

(** The file effect of [generate_report(output_file)]: the report that is
    written, path and content, or [None] when writing raises. *)
Definition write_report (output_file now : str) (s : Auditor) : option (str * str) :=
  if can_write output_file then Some (output_file, generate_report now s) else None.

(** [main] in command-line mode; [None] stands for the GUI mode, whose
    outcome is the user's. An exception that [generate_report] raises
    leaves [main]: the interpreter ends with status 1. *)
Definition main (now : str) (args : Args) : option Outcome :=
  if cli args then
    match directory args with
    | Some d =>
        if PyStr.truthy d then
          let auditor := scan_directory d (set_progress_callback true init) in
          match vst_usage auditor with
          | _ :: _ =>
              match write_report (output args) now auditor with
              | Some report => Some {| exit_code := 0; written := Some report |}
              | None => Some {| exit_code := 1; written := None |}
              end
          | [] => Some {| exit_code := 0; written := None |}
          end
        else Some {| exit_code := 1; written := None |}
    | None => Some {| exit_code := 1; written := None |}
    end
  else None.


(** [most_common(20)] *)
Definition top_vsts (auditor : Auditor) : list (str * nat) :=
  take 20 (most_common (vst_usage auditor)).

(** The [defaultdict(int)] of [display_results]. *)
Definition manufacturer_counts (auditor : Auditor) : list (str * nat) :=
  fold_left
    (fun d vst =>
       let manufacturer := manufacturer_of auditor vst in
       OrdDict.set manufacturer (default 0 (OrdDict.get manufacturer d) + 1) d)
    (OrdDict.keys (vst_usage auditor)) [].

(** [AbletonVSTGUI.display_results]: the text of the result area. *)
Definition display_results (auditor : Auditor) : str :=
  match vst_usage auditor with
  | [] => (lit "No VST plugins found in the scanned projects.")
  | _ :: _ =>
      lit "SCAN RESULTS" ++ nl
      ++ lit "Projects scanned: " ++ str_of_nat (length (project_vsts auditor)) ++ nl
      ++ lit "Unique VSTs found: " ++ str_of_nat (length (vst_usage auditor))
      ++ nl ++ nl
      ++ lit "TOP VSTs (by usage):" ++ nl
      ++ concat_str
            (imap (fun i (vc : str * nat) =>
                     fmt_2d (i + 1) ++ lit ". " ++ vc.1
                     ++ lit " (" ++ str_of_nat vc.2 ++ lit "x) ["
                     ++ manufacturer_of auditor vc.1 ++ lit "]" ++ nl)
                  (top_vsts auditor))
      ++ (if 20 <? length (vst_usage auditor)
           then nl ++ lit "... and " ++ str_of_nat (length (vst_usage auditor) - 20)
                ++ lit " more" ++ nl
           else [])
      ++ nl ++ lit "MANUFACTURERS FOUND:" ++ nl
      ++ concat_str
            ((fun mc : str * nat =>
                bullet ++ lit " " ++ mc.1 ++ lit ": " ++ str_of_nat mc.2
                ++ lit " plugin(s)" ++ nl)
             <$> sort_by (fun x y : str * nat => y.2 <=? x.2)
                         (manufacturer_counts auditor))
  end.

(** The lines that [example_project_analysis] prints for one project. *)
Definition project_lines (auditor : Auditor) (entry : str * list str)
  : list str :=
  let '(project_path, vsts) := entry in
  let unique_vsts := list_of_set vsts in
  let manufacturers := list_of_set (manufacturer_of auditor <$> unique_vsts) in
  [ nl ++ basename project_path ++ lit ":";
    lit "  Total VST instances: " ++ str_of_nat (length vsts);
    lit "  Unique VSTs: " ++ str_of_nat (length unique_vsts);
    lit "  Manufacturers: " ++ PyStr.join (lit ", ") (sort_by PyStr.leb manufacturers) ].

(** [example_project_analysis] of [example_usage.py]. *)
Definition example_project_analysis : list str :=
  let auditor := scan_directory (lit "ALS") init in
  (nl ++ lit "=== Project Analysis Example ===")
  :: match project_vsts auditor with
     | [] => [lit "No projects found!"]
     | _ :: _ =>
         (lit "Project VST Usage:") :: (project_vsts auditor ≫= project_lines auditor)
     end.

(** [sum(auditor.vst_usage.values())] *)
Definition total_vst_instances (auditor : Auditor) : nat :=
  sum_list (vst_usage auditor).*2.

(** [example_custom_report] of [example_usage.py]. Under the second test
    of [auditor.vst_usage] the list [most_common(1)] has an element; the
    [None] branch stands for the [IndexError] that cannot occur. *)
Definition example_custom_report : list str :=
  let auditor := scan_directory (lit "ALS") init in
  (nl ++ lit "=== Custom Report Example ===")
  :: match vst_usage auditor with
     | [] => [lit "No VSTs found!"]
     | _ :: _ =>
         [ lit "CUSTOM VST ANALYSIS REPORT";
           repeat_str (lit "=") 40;
           (lit "Total VST instances across all projects: ")
           ++ str_of_nat (total_vst_instances auditor);
           lit "Unique VST plugins: " ++ str_of_nat (length (vst_usage auditor));
           lit "Projects analyzed: " ++ str_of_nat (length (project_vsts auditor)) ]
         ++ match head (take 1 (most_common (vst_usage auditor))) with
            | Some most_used =>
                [ lit "Most used VST: " ++ most_used.1 ++ lit " ("
                  ++ str_of_nat most_used.2 ++ lit "x) by "
                  ++ manufacturer_of auditor most_used.1 ]
            | None => []
            end
         ++ [ lit "Manufacturers represented: "
              ++ str_of_nat
                    (length (list_of_set
                               (map_to_list (vst_manufacturers auditor)).*2)) ]
     end.

End Callers.

(** A folder for the example scripts: one project and a file that is none. *)
Definition als_disk : FileSystem :=
  disk [ (lit "ALS", [ (lit "ALS", [], [lit "one.als"; lit "broken.als"]) ]) ]
       [ (lit "ALS/one.als", widget_twice) ].

(** * Properties *)

(** ** Strings *)

#[local] Arguments N.eqb : simpl never.
#[local] Arguments N.ltb : simpl never.
#[local] Arguments N.leb : simpl never.

Module PyStrFacts.
Import PyStr.

Lemma startswith_spec (p s : str) :
  startswith p s = true ↔ ∃ r, s = p ++ r.
Proof.
  revert s; induction p as [|a p IH]; intros s; simpl.
  - split; [eauto | done].
  - destruct s as [|b s].
    + split; [done | intros [r Hr]; discriminate].
    + destruct (a =? b)%N eqn:E.
      * apply N.eqb_eq in E as ->. rewrite IH.
        split; intros [r Hr]; exists r; congruence.
      * split; [done | intros [r Hr]]. injection Hr as -> _.
        by rewrite N.eqb_refl in E.
Qed.

Lemma endswith_spec (suf s : str) :
  endswith suf s = true ↔ ∃ pre, s = pre ++ suf.
Proof.
  induction s as [|c s IH]; cbn [endswith].
  - rewrite orb_false_r, bool_decide_eq_true. split.
    + intros <-. by exists [].
    + intros [pre Hpre]. destruct pre; [done | discriminate].
  - rewrite orb_true_iff, bool_decide_eq_true, IH. split.
    + intros [<- | [pre ->]]; [by exists [] | by exists (c :: pre)].
    + intros [[|c' pre] Hpre]; simpl in Hpre; [by left | right].
      injection Hpre as _ ->. eauto.
Qed.

Lemma contains_spec (sub s : str) :
  contains sub s = true ↔ ∃ pre post, s = pre ++ sub ++ post.
Proof.
  induction s as [|c s IH]; cbn [contains].
  - rewrite orb_false_r, startswith_spec. split.
    + intros [r Hr]. by exists [], r.
    + intros [[|c pre] [post H]]; simpl in H; [eauto | discriminate].
  - rewrite orb_true_iff, startswith_spec, IH. split.
    + intros [[r Hr] | (pre & post & ->)]; [by exists [], r |].
      by exists (c :: pre), post.
    + intros [[|c' pre] [post H]]; simpl in H; [left; eauto | right].
      injection H as _ ->. eauto.
Qed.

Lemma truthy_spec (s : str) : truthy s = true ↔ s ≠ [].
Proof. destruct s; simpl; split; done. Qed.

Lemma mem_spec (x : str) (l : list str) : mem x l = true ↔ x ∈ l.
Proof. unfold mem. apply bool_decide_eq_true. Qed.

Lemma split_nonempty (sep : N) (s : str) : split sep s ≠ [].
Proof.
  induction s as [|c s IH]; simpl; [done |].
  destruct (c =? sep)%N; [done |]. by destruct (split sep s).
Qed.

(** The fields of [s.split(sep)], joined by [sep], give [s] back. *)
Lemma join_split (sep : N) (s : str) :
  join [sep] (split sep s) = s.
Proof.
  induction s as [|c s IH]; simpl; [done |].
  pose proof (split_nonempty sep s) as Hne.
  destruct (c =? sep)%N eqn:E.
  - apply N.eqb_eq in E as ->.
    destruct (split sep s) as [|f fs]; [done |].
    change (join [sep] ([] :: f :: fs)) with (sep :: join [sep] (f :: fs)).
    by rewrite IH.
  - destruct (split sep s) as [|f fs]; [done |].
    destruct fs as [|g fs]; simpl in *; by rewrite IH.
Qed.

(** No field of [s.split(sep)] contains [sep]. *)
Lemma split_sep_free (sep : N) (s part : str) :
  part ∈ split sep s → contains [sep] part = false.
Proof.
  revert part; induction s as [|c s IH]; simpl; intros part.
  - by intros ->%list_elem_of_singleton.
  - destruct (c =? sep)%N eqn:E.
    + intros [-> | H]%elem_of_cons; [done | by apply IH].
    + destruct (split sep s) as [|f fs]; simpl.
      * intros ->%list_elem_of_singleton. simpl. by rewrite N.eqb_sym, E.
      * intros [-> | H]%elem_of_cons.
        -- simpl. rewrite N.eqb_sym, E. simpl.
           apply IH. by left.
        -- apply IH. by right.
Qed.

(** The two equations of [str.replace] on a non-empty [old]: an
    occurrence at the front is replaced whole, any other character is
    kept. *)
Lemma replace_from_skip (old new : str) (k : nat) (pre s : str) :
  length pre = k →
  replace_from old new k (pre ++ s) = replace_from old new 0 s.
Proof.
  revert k; induction pre as [|c pre IH]; intros k Hk; simpl in *; subst k.
  - done.
  - by apply IH.
Qed.

Lemma replace_hit (old new s : str) (c : N) :
  replace (c :: old) new ((c :: old) ++ s) = new ++ replace (c :: old) new s.
Proof.
  unfold replace. simpl. rewrite N.eqb_refl.
  assert (startswith old (old ++ s) = true) as -> by (apply startswith_spec; eauto).
  f_equal. apply replace_from_skip. lia.
Qed.

Lemma replace_miss (old new s : str) (c : N) :
  startswith old (c :: s) = false →
  replace old new (c :: s) = c :: replace old new s.
Proof. unfold replace. simpl replace_from. by intros ->. Qed.

(** Replacing one character by another goes character by character. *)
Lemma replace_char (a b : N) (s : str) :
  replace [a] [b] s = (fun c => if (c =? a)%N then b else c) <$> s.
Proof.
  unfold replace. induction s as [|c s IH]; [done |].
  cbn [replace_from startswith length]. rewrite (N.eqb_sym a c).
  rewrite fmap_cons, <- IH. by destruct (c =? a)%N.
Qed.

(** [strip] and the white space at both ends. *)
Lemma lstrip_suffix (s : str) : ∃ pre, s = pre ++ lstrip s ∧ Forall (fun c => is_space c = true) pre.
Proof.
  induction s as [|c s (pre & Hs & Hpre)]; simpl; [by exists [] |].
  destruct (is_space c) eqn:E; [| by exists []].
  exists (c :: pre). split; [by rewrite Hs at 1 | by constructor].
Qed.

Lemma rstrip_prefix (s : str) : ∃ post, s = rstrip s ++ post ∧ Forall (fun c => is_space c = true) post.
Proof.
  induction s as [|c s (post & Hs & Hpost)]; simpl; [by exists [] |].
  destruct (is_space c && negb (truthy (rstrip s))) eqn:E.
  - apply andb_true_iff in E as [Hc E]. apply negb_true_iff in E.
    destruct (rstrip s) eqn:Er; [| done]. simpl in Hs. subst post.
    exists (c :: s). split; [done | by constructor].
  - exists post. split; [by rewrite Hs at 1 | done].
Qed.

(** The characters of [s.strip()] are characters of [s]. *)
Lemma strip_sublist (s : str) : ∃ pre post, s = pre ++ strip s ++ post.
Proof.
  destruct (lstrip_suffix s) as (pre & Hs & _).
  destruct (rstrip_prefix (lstrip s)) as (post & Hl & _).
  exists pre, post. unfold strip. by rewrite <- Hl.
Qed.

(** The order of strings. *)
Lemma leb_total (a b : str) : leb a b = true ∨ leb b a = true.
Proof.
  revert b; induction a as [|x a IH]; intros [|y b]; simpl; auto.
  destruct (x <? y)%N eqn:E1, (y <? x)%N eqn:E2; auto.
Qed.

Lemma leb_trans (a b c : str) : leb a b = true → leb b c = true → leb a c = true.
Proof.
  revert b c; induction a as [|x a IH]; intros [|y b] [|z c]; simpl; try done.
  destruct (x <? y)%N eqn:Exy, (y <? x)%N eqn:Eyx,
           (y <? z)%N eqn:Eyz, (z <? y)%N eqn:Ezy,
           (x <? z)%N eqn:Exz, (z <? x)%N eqn:Ezx;
    try done; try (intros; by eapply IH);
    rewrite ?N.ltb_lt, ?N.ltb_ge in *; lia.
Qed.

End PyStrFacts.

(** ** Rule A and Rule B *)

Section HeuristicProofs.
Context `{PF : Platform}.
Import PyStr PyStrFacts.

Lemma replace_backslash (p : str) : replace (lit "\") (lit "/") p = forward_slashes p.
Proof. exact (replace_char (ord "\") (ord "/") p). Qed.

Lemma forward_slashes_no_backslash (p : str) :
  contains (lit "\") (forward_slashes p) = false.
Proof.
  unfold forward_slashes. change (lit "\") with [ord "\"].
  induction p as [|c p IH]; [done |].
  rewrite fmap_cons. cbn [contains startswith]. rewrite IH, orb_false_r.
  destruct (c =? ord "\")%N eqn:E; [done |].
  by rewrite N.eqb_sym, E.
Qed.

Lemma contains_app_r (sub a b : str) :
  contains sub b = true → contains sub (a ++ b) = true.
Proof.
  rewrite !contains_spec. intros (pre & post & ->).
  exists (a ++ pre), post. by rewrite <- app_assoc.
Qed.

Lemma contains_app_l (sub a b : str) :
  contains sub a = true → contains sub (a ++ b) = true.
Proof.
  rewrite !contains_spec. intros (pre & post & ->).
  exists pre, (post ++ b). by rewrite <- !app_assoc.
Qed.

Lemma contains_join (sub sep part : str) (l : list str) :
  part ∈ l → contains sub part = true → contains sub (join sep l) = true.
Proof.
  induction l as [|f fs IH]; [by intros ?%elem_of_nil |].
  intros [-> | Hin]%elem_of_cons Hsub.
  - destruct fs; simpl; [done | by apply contains_app_l].
  - destruct fs as [|g fs]; [by apply elem_of_nil in Hin |].
    change (join sep (f :: g :: fs)) with (f ++ sep ++ join sep (g :: fs)).
    apply contains_app_r, contains_app_r. by apply IH.
Qed.

Lemma path_parts_segments (dll_path : str) :
  segments dll_path (path_parts_of dll_path).
Proof.
  unfold segments, path_parts_of. rewrite replace_backslash. split.
  - apply (join_split (ord "/")).
  - intros part Hin. split; [by apply (split_sep_free (ord "/")) in Hin |].
    destruct (contains (lit "\") part) eqn:E; [| done].
    apply (contains_join _ (lit "/") _ _ Hin) in E.
    pose proof (join_split (ord "/")) as Hjoin.
    change [ord "/"] with (lit "/") in Hjoin. rewrite Hjoin in E.
    by rewrite forward_slashes_no_backslash in E.
Qed.

Lemma lower_nil : lower [] = [].
Proof. by rewrite lower_ascii by constructor. Qed.

Lemma folder_ok_spec (folder : str) :
  folder_ok folder = true ↔ qualifies folder.
Proof.
  unfold folder_ok, qualifies.
  rewrite !andb_true_iff, negb_true_iff, truthy_spec, Nat.ltb_lt.
  rewrite <- not_true_iff_false, mem_spec. tauto.
Qed.

Lemma ends_in_dll_spec (part : str) :
  endswith (lit ".dll") (lower part) = true ↔ ends_in_dll part.
Proof. apply endswith_spec. Qed.

Lemma scan_back_spec (parts : list str) (i : nat) :
  i ≤ length parts →
  match scan_back parts i with
  | Some folder =>
      ∃ j seg, j < i ∧ parts !! j = Some seg ∧ folder = strip seg
               ∧ qualifies folder
               ∧ ∀ k seg', j < k → k < i → parts !! k = Some seg' →
                           ¬ qualifies (strip seg')
  | None =>
      ∀ k seg, k < i → parts !! k = Some seg → ¬ qualifies (strip seg)
  end.
Proof.
  induction i as [|i IH]; intros Hi; simpl.
  - intros k seg Hk. lia.
  - destruct (lookup_lt_is_Some_2 parts i) as [seg Hseg]; [lia |].
    rewrite Hseg. simpl.
    destruct (folder_ok (strip seg)) eqn:Hok.
    + exists i, seg.
      split; [lia |]. split; [done |]. split; [done |].
      split; [by apply folder_ok_spec |].
      intros k seg' ? ?. lia.
    + assert (¬ qualifies (strip seg)) as Hnq.
      { rewrite <- folder_ok_spec. by rewrite Hok. }
      specialize (IH ltac:(lia)). destruct (scan_back parts i) as [folder|].
      * destruct IH as (j & seg0 & Hj & Hl & -> & Hq & Hbetween).
        exists j, seg0.
        split; [lia |]. split; [done |]. split; [done |]. split; [done |].
        intros k seg' Hjk Hki Hk.
        destruct (decide (k = i)) as [-> | Hne]; [congruence |].
        apply (Hbetween k); [done | lia | done].
      * intros k seg' Hk Hl.
        destruct (decide (k = i)) as [-> | Hne]; [congruence |].
        apply (IH k); [lia | done].
Qed.

Lemma find_dll_spec (parts seen rest : list str) :
  parts = seen ++ rest →
  (∀ part, part ∈ seen → ¬ ends_in_dll part) →
  rule_A parts (find_dll parts rest (length seen)).
Proof.
  revert seen; induction rest as [|part rest IH]; intros seen -> Hseen; simpl.
  - apply rule_A_no_dll. by rewrite app_nil_r.
  - destruct (endswith (lit ".dll") (lower part)) eqn:E.
    + apply ends_in_dll_spec in E.
      assert (first_dll (seen ++ part :: rest) (length seen)) as Hfirst.
      { split.
        - exists part. by rewrite list_lookup_middle.
        - intros k p Hk Hl. rewrite lookup_app_l in Hl by done.
          apply Hseen. by eapply list_elem_of_lookup_2. }
      pose proof (scan_back_spec (seen ++ part :: rest) (length seen)) as Hscan.
      rewrite length_app in Hscan. specialize (Hscan ltac:(lia)).
      destruct (scan_back _ _) as [folder|].
      * destruct Hscan as (j & seg & Hj & Hl & -> & Hq & Hbetween).
        by eapply rule_A_folder.
      * by eapply rule_A_no_folder.
    + replace (S (length seen)) with (length (seen ++ [part]))
        by (rewrite length_app; simpl; lia).
      apply IH; [by rewrite <- app_assoc |].
      intros p [Hp | ->%list_elem_of_singleton]%elem_of_app; [by apply Hseen |].
      rewrite <- ends_in_dll_spec. by rewrite E.
Qed.

Lemma first_dll_unique (parts : list str) (i i' : nat) :
  first_dll parts i → first_dll parts i' → i = i'.
Proof.
  intros [(p & Hp & Hd) Hmin] [(p' & Hp' & Hd') Hmin'].
  destruct (lt_eq_lt_dec i i') as [[Hlt | ->] | Hlt]; [| done |].
  - by destruct (Hmin' i p Hlt Hp).
  - by destruct (Hmin i' p' Hlt Hp').
Qed.

(** The description determines the answer. *)
Lemma rule_A_functional (parts : list str) (r r' : option str) :
  rule_A parts r → rule_A parts r' → r = r'.
Proof.
  assert (∀ i, first_dll parts i →
               (∀ part, part ∈ parts → ¬ ends_in_dll part) → False) as Hno.
  { intros i [(p & Hp & Hd) _] Hall.
    apply (Hall p); [by eapply list_elem_of_lookup_2 | done]. }
  intros [Hall | i Hi Hnone | i j seg Hi Hj Hl Hq Hbetween];
    intros [Hall' | i' Hi' Hnone' | i' j' seg' Hi' Hj' Hl' Hq' Hbetween'];
    try done; try (exfalso; eauto; fail).
  - pose proof (first_dll_unique _ _ _ Hi Hi') as <-.
    by destruct (Hnone j' seg' Hj' Hl').
  - pose proof (first_dll_unique _ _ _ Hi Hi') as <-.
    by destruct (Hnone' j seg Hj Hl).
  - pose proof (first_dll_unique _ _ _ Hi Hi') as <-.
    destruct (lt_eq_lt_dec j j') as [[Hlt | ->] | Hlt].
    + by destruct (Hbetween j' seg' Hlt Hj' Hl').
    + congruence.
    + by destruct (Hbetween' j seg Hlt Hj Hl).
Qed.

Lemma extract_manufacturer_rule_A (dll_path : str) :
  rule_A (path_parts_of dll_path) (extract_manufacturer_from_path dll_path).
Proof.
  unfold extract_manufacturer_from_path.
  destruct dll_path as [|c p]; simpl negb; cbv iota.
  - apply rule_A_no_dll. intros part Hin [pre Hpre].
    vm_compute in Hin. apply list_elem_of_singleton in Hin as ->.
    rewrite lower_nil in Hpre. symmetry in Hpre.
    apply app_eq_nil in Hpre as [_ Hpre]. vm_compute in Hpre. discriminate.
  - apply (find_dll_spec _ []); [done | by intros ? ?%elem_of_nil].
Qed.

Lemma first_pattern_spec (seen table : list (str * str)) (name : str) :
  manufacturer_patterns = seen ++ table →
  (∀ pattern vendor, (pattern, vendor) ∈ seen →
                     ¬ has_substring pattern (lower name)) →
  rule_B name (first_pattern table (lower name)).
Proof.
  revert seen; induction table as [|[pattern vendor] table IH];
    intros seen Htable Hseen; simpl.
  - apply rule_B_none. rewrite Htable, app_nil_r. done.
  - destruct (contains pattern (lower name)) eqn:E.
    + apply contains_spec in E.
      apply (rule_B_first _ (length seen) pattern vendor).
      * rewrite Htable. by rewrite list_lookup_middle.
      * done.
      * intros k p v Hk Hl. rewrite Htable, lookup_app_l in Hl by done.
        apply Hseen with v. by eapply list_elem_of_lookup_2.
    + apply (IH (seen ++ [(pattern, vendor)])).
      * by rewrite <- app_assoc.
      * intros p v [Hp | Heq%list_elem_of_singleton]%elem_of_app.
        -- by eapply Hseen.
        -- injection Heq as -> ->. unfold has_substring.
           rewrite <- contains_spec. by rewrite E.
Qed.

Lemma rule_B_functional (name : str) (r r' : option str) :
  rule_B name r → rule_B name r' → r = r'.
Proof.
  intros [Hnone | i p v Hi Hsub Hmin] [Hnone' | i' p' v' Hi' Hsub' Hmin'].
  - done.
  - destruct (Hnone p' v'); [by eapply list_elem_of_lookup_2 | done].
  - destruct (Hnone' p v); [by eapply list_elem_of_lookup_2 | done].
  - destruct (lt_eq_lt_dec i i') as [[Hlt | ->] | Hlt].
    + by destruct (Hmin' i p v Hlt Hi).
    + congruence.
    + by destruct (Hmin i' p' v' Hlt Hi').
Qed.

(** On ASCII text every interpreter lower-cases alike, so the heuristics
    can be run. *)
Lemma ascii_text_check (s : str) :
  forallb (fun c => (c <? 128)%N) s = true → ascii_text s.
Proof.
  unfold ascii_text. induction s as [|c s IH]; simpl; [by constructor |].
  intros [Hc Hs]%andb_true_iff. constructor; [by apply N.ltb_lt | by apply IH].
Qed.

Lemma lower_ascii_text (s : str) : ascii_text s → lower s = @lower posix s.
Proof. apply lower_ascii. Qed.

Lemma strip_ascii_text (s : str) : ascii_text s → ascii_text (strip s).
Proof.
  unfold ascii_text. destruct (strip_sublist s) as (pre & post & Hs).
  rewrite Hs at 1. rewrite !Forall_app. tauto.
Qed.

Lemma split_ascii_text (sep : N) (s : str) :
  ascii_text s → Forall ascii_text (split sep s).
Proof.
  unfold ascii_text. induction s as [|c s IH]; simpl.
  - intros _. by repeat constructor.
  - intros [Hc Hs]%Forall_cons. specialize (IH Hs).
    destruct (c =? sep)%N; [by repeat constructor |].
    destruct (split sep s) as [|f fs]; [by repeat constructor |].
    apply Forall_cons in IH as [Hf Hfs]. by repeat constructor.
Qed.

Lemma folder_ok_ascii (folder : str) :
  ascii_text folder → folder_ok folder = @folder_ok posix folder.
Proof. intros H. unfold folder_ok. by rewrite (lower_ascii_text _ H). Qed.

Lemma scan_back_ascii (parts : list str) (i : nat) :
  Forall ascii_text parts → scan_back parts i = @scan_back posix parts i.
Proof.
  intros Hparts. induction i as [|i IH]; simpl; [done |].
  assert (ascii_text (strip (default [] (parts !! i)))) as Hfolder.
  { apply strip_ascii_text. destruct (parts !! i) as [seg|] eqn:E; simpl.
    - by eapply Forall_lookup_1.
    - constructor. }
  by rewrite (folder_ok_ascii _ Hfolder), IH.
Qed.

Lemma find_dll_ascii (parts rest : list str) (i : nat) :
  Forall ascii_text parts → Forall ascii_text rest →
  find_dll parts rest i = @find_dll posix parts rest i.
Proof.
  intros Hparts Hrest. revert i.
  induction Hrest as [|part rest Hpart Hrest IH]; intros i; simpl; [done |].
  by rewrite (lower_ascii_text _ Hpart), (scan_back_ascii _ _ Hparts), IH.
Qed.

Lemma extract_manufacturer_ascii (dll_path : str) :
  ascii_text dll_path →
  extract_manufacturer_from_path dll_path
  = @extract_manufacturer_from_path posix dll_path.
Proof.
  intros Hp. unfold extract_manufacturer_from_path.
  destruct (negb (truthy dll_path)); [done |].
  assert (Forall ascii_text (path_parts_of dll_path)) as Hparts.
  { unfold path_parts_of. rewrite replace_backslash. apply split_ascii_text.
    unfold ascii_text, forward_slashes in *. apply Forall_fmap.
    eapply Forall_impl; [exact Hp |]. intros c Hc. simpl.
    destruct (c =? ord "\")%N; [by vm_compute | done]. }
  by apply find_dll_ascii.
Qed.

Lemma get_manufacturer_ascii (plugin_name : str) :
  ascii_text plugin_name →
  get_manufacturer_from_plugin_name plugin_name
  = @get_manufacturer_from_plugin_name posix plugin_name.
Proof.
  intros H. unfold get_manufacturer_from_plugin_name.
  by rewrite (lower_ascii_text _ H).
Qed.

End HeuristicProofs.

(** Shows that a literal is ASCII text. *)
Ltac solve_ascii_text := apply ascii_text_check; vm_compute; reflexivity.

(** C5. Rule A splits the path on both separator styles, takes the first
    segment that ends, in any letter case, in [.dll], and from there goes
    back through the segments before it: the stripped segment it returns is
    the first that is non-empty, longer than two characters and outside the
    stoplist in lower case; when there is no such segment, or no [.dll]
    segment, it returns [None]. On [.../SomeVendor/vst/reverb/Plugin.dll]
    the answer is [SomeVendor]. *)
Theorem extract_manufacturer_from_path_spec `{PF : Platform} :
  (∀ dll_path,
     segments dll_path (path_parts_of dll_path)
     ∧ rule_A (path_parts_of dll_path) (extract_manufacturer_from_path dll_path))
  ∧ extract_manufacturer_from_path (lit ".../SomeVendor/vst/reverb/Plugin.dll")
    = Some (lit "SomeVendor").
Proof.
  split.
  - intros dll_path. split.
    + apply path_parts_segments.
    + apply extract_manufacturer_rule_A.
  - rewrite extract_manufacturer_ascii by solve_ascii_text. vm_compute. reflexivity.
Qed.

(** C6. Rule B lower-cases the name and returns the vendor of the first
    pattern, in the order of the table, that the lower-cased name contains,
    and [None] when it contains none of them. [TAL-Reverb-4] is attributed
    to [TAL-Software] by the pattern [tal-]. *)
Theorem get_manufacturer_from_plugin_name_spec `{PF : Platform} :
  (∀ plugin_name,
     rule_B plugin_name (get_manufacturer_from_plugin_name plugin_name))
  ∧ manufacturer_patterns !! 0 = Some (lit "tal-", lit "TAL-Software")
  ∧ has_substring (lit "tal-") (lower (lit "TAL-Reverb-4"))
  ∧ get_manufacturer_from_plugin_name (lit "TAL-Reverb-4") = Some (lit "TAL-Software").
Proof.
  split; [| split; [| split]].
  - intros plugin_name. unfold get_manufacturer_from_plugin_name.
    destruct plugin_name as [|c s]; simpl negb; cbv iota.
    + apply rule_B_none. intros pattern vendor Hin (pre & post & Heq).
      rewrite lower_nil in Heq. symmetry in Heq.
      apply app_eq_nil in Heq as [_ [-> _]%app_eq_nil].
      vm_compute in Hin.
      repeat (apply elem_of_cons in Hin as [Hin | Hin]; [discriminate |]).
      by apply elem_of_nil in Hin.
    + apply (first_pattern_spec []); [done | by intros ? ? ?%elem_of_nil].
  - reflexivity.
  - rewrite lower_ascii_text by solve_ascii_text.
    exists [], (lit "reverb-4"). vm_compute. reflexivity.
  - rewrite get_manufacturer_ascii by solve_ascii_text. vm_compute. reflexivity.
Qed.

(** ** Dictionaries and counters *)

Module OrdDictFacts.
Import OrdDict.

Section Facts.
Context {V : Type}.
Implicit Types (d : list (str * V)) (k : str) (v : V).

Lemma get_set k k' v d :
  get k' (set k v d) = if decide (k = k') then Some v else get k' d.
Proof.
  induction d as [|[k0 v0] d IH]; simpl.
  - repeat case_decide; done.
  - destruct (decide (k0 = k)) as [-> | Hne]; simpl.
    + repeat case_decide; done.
    + rewrite IH. repeat case_decide; congruence.
Qed.

Lemma get_None k d : get k d = None ↔ k ∉ keys d.
Proof.
  unfold keys. induction d as [|[k0 v0] d IH]; simpl.
  - split; [intros _; apply not_elem_of_nil | done].
  - rewrite not_elem_of_cons. case_decide; [subst |]; split.
    + done.
    + intros [? _]. done.
    + intros H1. split; [done | by apply IH].
    + intros [_ H1]. by apply IH.
Qed.

Lemma set_fresh k v d : k ∉ keys d → set k v d = d ++ [(k, v)].
Proof.
  unfold keys. induction d as [|[k0 v0] d IH]; simpl; [done |].
  rewrite not_elem_of_cons. intros [Hne Hd].
  case_decide; [congruence |]. by rewrite IH.
Qed.

Lemma elem_of_keys_set k v d x : x ∈ keys (set k v d) ↔ x = k ∨ x ∈ keys d.
Proof.
  unfold keys. induction d as [|[k0 v0] d IH]; simpl.
  - rewrite list_elem_of_singleton. rewrite elem_of_nil. tauto.
  - case_decide; simpl; rewrite !elem_of_cons.
    + subst. tauto.
    + rewrite IH. tauto.
Qed.

Lemma elem_of_set k v d (entry : str * V) :
  entry ∈ set k v d → entry = (k, v) ∨ entry ∈ d.
Proof.
  induction d as [|[k0 v0] d IH]; simpl.
  - intros ->%list_elem_of_singleton. by left.
  - case_decide; rewrite !elem_of_cons; [tauto |].
    intros [-> | H1]; [tauto |]. destruct (IH H1); tauto.
Qed.

Lemma length_set_fresh k v d : k ∉ keys d → length (set k v d) = S (length d).
Proof. intros H. rewrite set_fresh by done. rewrite length_app. simpl. lia. Qed.
End Facts.

Lemma count_of_increment (usage : list (str * nat)) (vst x : str) :
  count_of x (increment usage vst)
  = count_of x usage + (if decide (x = vst) then 1 else 0).
Proof.
  unfold increment, count_of at 1. rewrite get_set.
  repeat case_decide; subst; simpl; try done; try lia.
Qed.

(** Adding 1 per element of a duplicate-free list adds exactly 1 to the
    count of each of its elements and nothing to the others. *)
Lemma count_of_increments (l : list str) (usage : list (str * nat)) (x : str) :
  NoDup l →
  count_of x (fold_left increment l usage)
  = count_of x usage + (if decide (x ∈ l) then 1 else 0).
Proof.
  intros Hnd; revert usage; induction Hnd as [|vst l Hnotin Hnd IH];
    intros usage; simpl.
  - lia.
  - rewrite IH, count_of_increment.
    destruct (decide (x = vst)) as [-> | Hne].
    + rewrite (decide_True (P := vst ∈ vst :: l)) by (left; done).
      rewrite decide_False by done. lia.
    + destruct (decide (x ∈ l)) as [Hin | Hout].
      * rewrite (decide_True (P := x ∈ vst :: l)) by (by right). lia.
      * rewrite (decide_False (P := x ∈ vst :: l)); [lia |].
        by intros [? | ?]%elem_of_cons.
Qed.

Lemma elem_of_keys_increments (l : list str) (usage : list (str * nat)) (x : str) :
  x ∈ keys (fold_left increment l usage) ↔ x ∈ l ∨ x ∈ keys usage.
Proof.
  revert usage; induction l as [|vst l IH]; intros usage; simpl.
  - rewrite elem_of_nil. tauto.
  - rewrite IH. unfold increment. rewrite elem_of_keys_set, elem_of_cons. tauto.
Qed.

End OrdDictFacts.

(** ** The scan loop *)

Section ScanFacts.
Context `{PF : Platform} `{FS : FileSystem}.
Import OrdDict OrdDictFacts.

Lemma list_of_set_nil : list_of_set [] = [].
Proof.
  pose proof (list_of_set_elem []) as H.
  destruct (list_of_set []) as [|x l]; [done |].
  destruct (H x) as [H1 _]. exfalso.
  eapply not_elem_of_nil, H1. left.
Qed.

Lemma update_progress_usage m s : vst_usage (update_progress m s) = vst_usage s.
Proof. unfold update_progress. by destruct (progress_callback s). Qed.

Lemma update_progress_registry m s :
  project_vsts (update_progress m s) = project_vsts s.
Proof. unfold update_progress. by destruct (progress_callback s). Qed.

Lemma update_progress_manufacturers m s :
  vst_manufacturers (update_progress m s) = vst_manufacturers s.
Proof. unfold update_progress. by destruct (progress_callback s). Qed.

Lemma update_progress_processed m s :
  processed_files (update_progress m s) = processed_files s.
Proof. unfold update_progress. by destruct (progress_callback s). Qed.

Lemma update_progress_total m s :
  total_files (update_progress m s) = total_files s.
Proof. unfold update_progress. by destruct (progress_callback s). Qed.

Lemma parse_als_file_list f s : (parse_als_file f s).1 = list_of_set (found_in f).
Proof. unfold parse_als_file, found_in. by destruct (read_xml f). Qed.

Lemma parse_als_file_usage f s : vst_usage (parse_als_file f s).2 = vst_usage s.
Proof. unfold parse_als_file. by destruct (read_xml f). Qed.

Lemma parse_als_file_registry f s : project_vsts (parse_als_file f s).2 = project_vsts s.
Proof. unfold parse_als_file. by destruct (read_xml f). Qed.

Lemma parse_als_file_NoDup f s : NoDup (parse_als_file f s).1.
Proof. rewrite parse_als_file_list. apply list_of_set_NoDup. Qed.

(** A file that cannot be read or parsed yields the empty list and leaves
    the auditor as it was. *)
Lemma parse_als_file_failure f s :
  read_xml f = None → parse_als_file f s = ([], s).
Proof. unfold parse_als_file. intros ->. by rewrite list_of_set_nil. Qed.

Lemma scan_file_usage s f :
  vst_usage (scan_file s f)
  = fold_left increment (list_of_set (found_in f)) (vst_usage s).
Proof.
  unfold scan_file.
  set (s1 := update_progress _ _).
  pose proof (parse_als_file_list f s1) as Hl.
  pose proof (parse_als_file_usage f s1) as Hu.
  destruct (parse_als_file f s1) as [vsts s2]. simpl in Hl, Hu. subst vsts.
  unfold s1 in Hu. rewrite update_progress_usage in Hu. simpl in Hu.
  destruct (list_of_set (found_in f)); simpl; by rewrite Hu.
Qed.

Lemma scan_file_registry s f :
  project_vsts (scan_file s f)
  = match list_of_set (found_in f) with
    | [] => project_vsts s
    | vsts => set f vsts (project_vsts s)
    end.
Proof.
  unfold scan_file.
  set (s1 := update_progress _ _).
  pose proof (parse_als_file_list f s1) as Hl.
  pose proof (parse_als_file_registry f s1) as Hr.
  destruct (parse_als_file f s1) as [vsts s2]. simpl in Hl, Hr. subst vsts.
  unfold s1 in Hr. rewrite update_progress_registry in Hr. simpl in Hr.
  destruct (list_of_set (found_in f)); simpl; by rewrite Hr.
Qed.

Lemma scan_file_manufacturers s f :
  vst_manufacturers (scan_file s f) = vst_manufacturers (parse_als_file f s).2.
Proof.
  unfold scan_file.
  set (s1 := update_progress _ _).
  assert (vst_manufacturers (parse_als_file f s1).2
          = vst_manufacturers (parse_als_file f s).2) as <-.
  { unfold parse_als_file. destruct (read_xml f); simpl; [| subst s1].
    - unfold s1. by rewrite update_progress_manufacturers.
    - by rewrite update_progress_manufacturers. }
  destruct (parse_als_file f s1) as [vsts s2]. simpl.
  by destruct vsts.
Qed.

(** The counter and the registry after the loop depend on nothing of the
    auditor but the counter and the registry before it. *)
Lemma scan_files_usage_registry files s s' :
  vst_usage s = vst_usage s' →
  project_vsts s = project_vsts s' →
  vst_usage (fold_left scan_file files s) = vst_usage (fold_left scan_file files s')
  ∧ project_vsts (fold_left scan_file files s)
    = project_vsts (fold_left scan_file files s').
Proof.
  revert s s'; induction files as [|f files IH]; intros s s' Hu Hr; simpl; [done |].
  apply IH.
  - rewrite !scan_file_usage. by rewrite Hu.
  - rewrite !scan_file_registry. by rewrite Hr.
Qed.

(** What [scan_directory] hands to the loop: a cleared counter and
    registry, the mapping as it was. *)
Lemma scan_directory_loop directory s :
  ∃ s0,
    vst_usage s0 = [] ∧ project_vsts s0 = []
    ∧ vst_manufacturers s0 = vst_manufacturers s
    ∧ let s' := fold_left scan_file (find_als_files directory) s0 in
      vst_usage (scan_directory directory s) = vst_usage s'
      ∧ project_vsts (scan_directory directory s) = project_vsts s'
      ∧ vst_manufacturers (scan_directory directory s) = vst_manufacturers s'.
Proof.
  unfold scan_directory.
  set (s0 := set_total_files _ _).
  exists (update_progress
            (lit "Found " ++ str_of_nat (total_files s0)
             ++ lit " .als files. Starting scan...") s0).
  rewrite update_progress_usage, update_progress_registry,
    update_progress_manufacturers.
  unfold s0 at 1 2 3. simpl.
  rewrite update_progress_usage, update_progress_registry,
    update_progress_manufacturers. simpl.
  split; [done |]. split; [done |]. split; [done |].
  destruct (find_als_files directory) as [|f files] eqn:E.
  - simpl. rewrite !update_progress_usage, !update_progress_registry,
      !update_progress_manufacturers. done.
  - rewrite !update_progress_usage, !update_progress_registry,
      !update_progress_manufacturers. done.
Qed.

End ScanFacts.

(** Reads a field through the setters and through [update_progress]. *)
Ltac auditor_simpl :=
  repeat progress
    (simpl;
     rewrite ?update_progress_usage, ?update_progress_registry,
       ?update_progress_processed, ?update_progress_total,
       ?update_progress_manufacturers).

(** ** The walk over a document *)

Section WalkFacts.
Context `{PF : Platform}.
Import PyStr PyStrFacts.

Lemma extends_refl w : extends w w.
Proof. by split. Qed.

Lemma extends_trans w1 w2 w3 : extends w1 w2 → extends w2 w3 → extends w1 w3.
Proof. intros [H1 H2] [H3 H4]. split; auto. Qed.

Lemma extends_fresh w name local :
  mem name (vsts_found w) = false →
  extends w {| vsts_found := vsts_found w ++ [name]; local_manufacturers := local |}.
Proof.
  intros Hfresh. split; simpl.
  - intros x Hx. apply elem_of_app. by left.
  - intros Hnd. apply NoDup_app. split; [done |]. split.
    + intros x Hx ->%list_elem_of_singleton.
      apply mem_spec in Hx. congruence.
    + apply NoDup_singleton.
Qed.

Lemma note_dll_extends raw w : extends w (note_dll raw w).
Proof.
  unfold note_dll. destruct (_ && _); [| apply extends_refl].
  destruct (truthy (basename (strip raw))); simpl; [| apply extends_refl].
  destruct (mem (basename (strip raw)) (vsts_found w)) eqn:Hmem; simpl;
    [apply extends_refl |].
  destruct (extract_manufacturer_from_path (strip raw)) as [m|];
    [destruct (_ && _) |]; by apply extends_fresh.
Qed.

(** A value that mentions [.dll] and has a base name puts that name among
    the references found. *)
Lemma note_dll_finds raw w :
  raw ≠ [] →
  has_substring (lit ".dll") (lower raw) →
  basename (strip raw) ≠ [] →
  basename (strip raw) ∈ vsts_found (note_dll raw w).
Proof.
  intros Hraw Hdll Hname. unfold note_dll.
  apply truthy_spec in Hraw as ->. apply contains_spec in Hdll as ->.
  apply truthy_spec in Hname as ->. simpl.
  destruct (mem (basename (strip raw)) (vsts_found w)) eqn:Hmem; simpl.
  - by apply mem_spec.
  - assert (∀ local, basename (strip raw)
                     ∈ vsts_found {| vsts_found := vsts_found w ++ [basename (strip raw)];
                                     local_manufacturers := local |}) as Hin.
    { intros local. simpl. apply elem_of_app. right. by left. }
    destruct (extract_manufacturer_from_path (strip raw)) as [m|];
      [destruct (_ && _) |]; apply Hin.
Qed.

Lemma note_text_extends e w : extends w (note_text e w).
Proof.
  unfold note_text. destruct (text e); [apply note_dll_extends | apply extends_refl].
Qed.

Lemma note_attribs_extends e w : extends w (note_attribs e w).
Proof.
  unfold note_attribs. generalize (attrib e) as l. intros l.
  revert w; induction l as [|kv l IH]; intros w; simpl; [apply extends_refl |].
  eapply extends_trans; [apply note_dll_extends | apply IH].
Qed.

Lemma note_browser_path_found e w :
  vsts_found (note_browser_path e w) = vsts_found w.
Proof.
  unfold note_browser_path. destruct (bool_decide _); [| done].
  destruct (find (lit "Value") e) as [v|]; [| done].
  destruct (text v) as [t|]; [| done].
  destruct (_ && _ && _); [| done]. by destruct (4 <=? _).
Qed.

Lemma note_browser_path_extends e w : extends w (note_browser_path e w).
Proof. unfold extends. rewrite note_browser_path_found. by split. Qed.

Lemma note_child_name_extends w child : extends w (note_child_name w child).
Proof.
  unfold note_child_name. destruct (text child) as [t|]; [| apply extends_refl].
  destruct (_ && _ && _); [| apply extends_refl].
  destruct (truthy (strip t)); simpl; [| apply extends_refl].
  destruct (mem (strip t) (vsts_found w)) eqn:Hmem; simpl; [apply extends_refl |].
  by apply extends_fresh.
Qed.

Lemma note_plugin_info_extends e w : extends w (note_plugin_info e w).
Proof.
  unfold note_plugin_info. destruct (mem (tag e) plugin_info_tags);
    [| apply extends_refl].
  set (w1 := match OrdDict.get (lit "Name") (attrib e) with Some _ => _ | None => _ end).
  assert (extends w w1) as Hw1.
  { unfold w1. destruct (OrdDict.get (lit "Name") (attrib e)) as [name|];
      [| apply extends_refl].
    destruct (truthy name); simpl; [| apply extends_refl].
    destruct (mem name (vsts_found w)) eqn:Hmem; simpl; [apply extends_refl |].
    destruct (endswith (lit ".dll") name); simpl; [apply extends_refl |].
    by apply extends_fresh. }
  eapply extends_trans; [exact Hw1 |]. generalize w1 as w2.
  induction (children e) as [|c cs IH]; intros w2; simpl; [apply extends_refl |].
  eapply extends_trans; [apply note_child_name_extends | apply IH].
Qed.

Lemma visit_extends w e : extends w (visit w e).
Proof.
  unfold visit.
  eapply extends_trans; [apply note_text_extends |].
  eapply extends_trans; [apply note_attribs_extends |].
  eapply extends_trans; [apply note_browser_path_extends |].
  apply note_plugin_info_extends.
Qed.

Lemma visits_extend l w : extends w (fold_left visit l w).
Proof.
  revert w; induction l as [|e l IH]; intros w; simpl; [apply extends_refl |].
  eapply extends_trans; [apply visit_extends | apply IH].
Qed.

(** The walk never lists a reference twice. *)
Lemma walk_NoDup root : NoDup (vsts_found (walk root)).
Proof. apply (visits_extend (iter root) empty_walk). apply NoDup_nil_2. Qed.

(** Every element text that mentions [.dll] and has a base name is among
    the references that the walk finds, wherever and however often it
    occurs in the document. *)
Lemma walk_finds_text root e raw :
  e ∈ iter root →
  text e = Some raw →
  raw ≠ [] →
  has_substring (lit ".dll") (lower raw) →
  basename (strip raw) ≠ [] →
  basename (strip raw) ∈ vsts_found (walk root).
Proof.
  intros Hin Htext Hraw Hdll Hname. unfold walk.
  apply list_elem_of_split in Hin as (l1 & l2 & ->).
  rewrite fold_left_app. simpl.
  apply (visits_extend l2). unfold visit.
  apply note_plugin_info_extends. rewrite note_browser_path_found.
  apply note_attribs_extends. unfold note_text. rewrite Htext.
  by apply note_dll_finds.
Qed.

End WalkFacts.

(** ** Counting *)

Section Counting.
Context `{PF : Platform} `{FS : FileSystem}.
Import OrdDict OrdDictFacts.

Lemma scan_file_registry_keys s f k :
  k ∈ keys (project_vsts (scan_file s f)) → k = f ∨ k ∈ keys (project_vsts s).
Proof.
  rewrite scan_file_registry.
  destruct (list_of_set (found_in f)); [by right |].
  by rewrite elem_of_keys_set.
Qed.

Lemma scan_file_registry_entry s f entry :
  entry ∈ project_vsts (scan_file s f) →
  entry = (f, list_of_set (found_in f)) ∨ entry ∈ project_vsts s.
Proof.
  rewrite scan_file_registry.
  destruct (list_of_set (found_in f)) eqn:E; [by right |].
  apply elem_of_set.
Qed.

Lemma scan_files_registry_NoDup files s :
  (∀ entry, entry ∈ project_vsts s → NoDup entry.2) →
  ∀ entry, entry ∈ project_vsts (fold_left scan_file files s) → NoDup entry.2.
Proof.
  revert s; induction files as [|f files IH]; intros s Hs; simpl; [done |].
  apply IH. intros entry [-> | Hin]%scan_file_registry_entry.
  - apply list_of_set_NoDup.
  - by apply Hs.
Qed.

Lemma scan_file_consistent s f :
  f ∉ keys (project_vsts s) →
  consistent (vst_usage s) (project_vsts s) →
  consistent (vst_usage (scan_file s f)) (project_vsts (scan_file s f)).
Proof.
  intros Hfresh [Hcount Hkeys].
  rewrite scan_file_usage, scan_file_registry.
  pose proof (list_of_set_NoDup (found_in f)) as Hnd.
  destruct (list_of_set (found_in f)) as [|v vs] eqn:E; [done |].
  rewrite <- E in *. clear E. set (l := list_of_set (found_in f)) in *.
  rewrite set_fresh by done. split.
  - intros p. rewrite count_of_increments by done.
    rewrite filter_app, length_app, Hcount. f_equal.
    rewrite filter_cons, filter_nil. simpl.
    by repeat case_decide.
  - intros p. rewrite elem_of_keys_increments, Hkeys. split.
    + intros [Hin | (path & vsts & Hin & Hp)].
      * exists f, l. split; [| done]. apply elem_of_app. right. by left.
      * exists path, vsts. split; [| done]. apply elem_of_app. by left.
    + intros (path & vsts & [Hin | Hin]%elem_of_app & Hp).
      * right. eauto.
      * apply list_elem_of_singleton in Hin. injection Hin as -> ->. by left.
Qed.

Lemma scan_files_consistent files s :
  NoDup files →
  (∀ k, k ∈ keys (project_vsts s) → k ∉ files) →
  consistent (vst_usage s) (project_vsts s) →
  consistent (vst_usage (fold_left scan_file files s))
             (project_vsts (fold_left scan_file files s)).
Proof.
  intros Hnd; revert s; induction Hnd as [|f files Hnotin Hnd IH];
    intros s Hkeys Hcons; simpl; [done |].
  apply IH.
  - intros k [-> | Hk]%scan_file_registry_keys; [done |].
    intros Hin. apply (Hkeys k Hk). by right.
  - apply scan_file_consistent; [| done].
    intros Hin. apply (Hkeys f Hin). by left.
Qed.

End Counting.

(** C1. Processing one project file adds exactly 1 to the count of every
    plugin reference found in it and nothing to any other count, however
    often the reference occurs in the file: the list that the parser
    returns has no duplicates and holds exactly the references that the
    walk found, and the loop body adds 1 per element of that list. *)
Theorem scan_file_counts_once `{PF : Platform} `{FS : FileSystem} (s : Auditor) (file_path vst : str) :
  NoDup (parse_als_file file_path s).1
  ∧ (vst ∈ (parse_als_file file_path s).1 ↔ vst ∈ found_in file_path)
  ∧ vst_usage (scan_file s file_path)
    = fold_left increment (parse_als_file file_path s).1 (vst_usage s)
  ∧ count_of vst (vst_usage (scan_file s file_path))
    = count_of vst (vst_usage s)
      + (if decide (vst ∈ found_in file_path) then 1 else 0).
Proof.
  split; [apply parse_als_file_NoDup |].
  rewrite parse_als_file_list.
  split; [apply list_of_set_elem |].
  split; [apply scan_file_usage |].
  rewrite scan_file_usage.
  rewrite OrdDictFacts.count_of_increments by apply list_of_set_NoDup.
  f_equal. pose proof (list_of_set_elem (found_in file_path) vst).
  repeat case_decide; tauto.
Qed.

(** C9. Every plugin list that [scan_directory] leaves in the Project
    Registry is free of duplicates. *)
Theorem registry_lists_NoDup `{PF : Platform} `{FS : FileSystem} (directory : str) (s : Auditor)
    (project_path : str) (vsts : list str) :
  (project_path, vsts) ∈ project_vsts (scan_directory directory s) →
  NoDup vsts.
Proof.
  destruct (scan_directory_loop directory s) as (s0 & _ & Hr0 & _ & _ & -> & _).
  intros Hin.
  apply (scan_files_registry_NoDup (find_als_files directory) s0) in Hin; [done |].
  rewrite Hr0. by intros entry ?%elem_of_nil.
Qed.

(** C10. After [scan_directory], over the distinct paths that the walk of
    the directory yields, the count of every plugin reference is the number
    of registry entries whose list contains it, and the counted references
    are exactly those that occur in some registry list. *)
Theorem usage_matches_registry `{PF : Platform} `{FS : FileSystem} (directory : str) (s : Auditor) :
  NoDup (find_als_files directory) →
  let s' := scan_directory directory s in
  (∀ p, count_of p (vst_usage s')
        = length (filter (fun entry : str * list str => p ∈ entry.2)
                         (project_vsts s')))
  ∧ (∀ p, p ∈ OrdDict.keys (vst_usage s')
          ↔ ∃ project_path vsts, (project_path, vsts) ∈ project_vsts s' ∧ p ∈ vsts).
Proof.
  intros Hnd s'. subst s'.
  destruct (scan_directory_loop directory s) as (s0 & Hu0 & Hr0 & _ & -> & -> & _).
  apply scan_files_consistent; [done | |].
  - rewrite Hr0. by intros k ?%elem_of_nil.
  - rewrite Hu0, Hr0. split; [done |].
    intros p. split; [by intros ?%elem_of_nil |].
    by intros (? & ? & ?%elem_of_nil & _).
Qed.

(** ** The manufacturer mapping *)

Section Mapping.
Context `{PF : Platform} `{FS : FileSystem}.

(** The commit loop writes only to keys that are absent. *)
Lemma commit_keeps (local manufacturers : gmap str str) (vst k v : str) :
  manufacturers !! k = Some v → commit local manufacturers vst !! k = Some v.
Proof.
  intros Hk. unfold commit. case_bool_decide as Hin; [done |].
  rewrite lookup_insert_ne; [done |]. intros ->. apply Hin. eauto.
Qed.

Lemma commits_keep (local : gmap str str) (found : list str) (manufacturers : gmap str str)
    (k v : str) :
  manufacturers !! k = Some v →
  fold_left (commit local) found manufacturers !! k = Some v.
Proof.
  revert manufacturers; induction found as [|vst found IH];
    intros manufacturers Hk; simpl; [done |].
  by apply IH, commit_keeps.
Qed.

(** Every reference that the loop visits has a value afterwards. *)
Lemma commits_cover (local : gmap str str) (found : list str) (manufacturers : gmap str str)
    (vst : str) :
  vst ∈ found → is_Some (fold_left (commit local) found manufacturers !! vst).
Proof.
  revert manufacturers; induction found as [|x found IH];
    intros manufacturers; [by intros ?%elem_of_nil |].
  intros [-> | Hin]%elem_of_cons; simpl; [| by apply IH].
  assert (is_Some (commit local manufacturers x !! x)) as [v Hv].
  { unfold commit. case_bool_decide as Hx; [done |].
    rewrite lookup_insert_eq. eauto. }
  exists v. by apply commits_keep.
Qed.

Lemma parse_als_file_keeps f s k v :
  vst_manufacturers s !! k = Some v →
  vst_manufacturers (parse_als_file f s).2 !! k = Some v.
Proof.
  intros Hk. unfold parse_als_file. destruct (read_xml f); simpl; [| done].
  by apply commits_keep.
Qed.

Lemma parse_als_file_covers f s vst :
  vst ∈ found_in f → is_Some (vst_manufacturers (parse_als_file f s).2 !! vst).
Proof.
  unfold parse_als_file, found_in. destruct (read_xml f); simpl.
  - apply commits_cover.
  - by intros ?%elem_of_nil.
Qed.

Lemma scan_files_keep files s k v :
  vst_manufacturers s !! k = Some v →
  vst_manufacturers (fold_left scan_file files s) !! k = Some v.
Proof.
  revert s; induction files as [|f files IH]; intros s Hk; simpl; [done |].
  apply IH. rewrite scan_file_manufacturers. by apply parse_als_file_keeps.
Qed.

(** The mapping outlives a new scan: [scan_directory] does not clear it. *)
Lemma scan_directory_keeps directory s k v :
  vst_manufacturers s !! k = Some v →
  vst_manufacturers (scan_directory directory s) !! k = Some v.
Proof.
  intros Hk.
  destruct (scan_directory_loop directory s) as (s0 & _ & _ & Hm0 & _ & _ & ->).
  apply scan_files_keep. by rewrite Hm0.
Qed.

Lemma scan_file_skips_failure s s' f :
  read_xml f = None →
  vst_usage s = vst_usage s' → project_vsts s = project_vsts s' →
  vst_usage (scan_file s f) = vst_usage s'
  ∧ project_vsts (scan_file s f) = project_vsts s'.
Proof.
  intros Hf Hu Hr. rewrite scan_file_usage, scan_file_registry.
  unfold found_in. rewrite Hf, list_of_set_nil. done.
Qed.

End Mapping.

(** C2. The Manufacturer Mapping is first-writer-wins: a call of
    [parse_als_file] gives every reference it found a value, and a value
    that the mapping holds for a reference is still the value after any
    sequence of later calls, on whatever files. *)
Theorem manufacturer_first_writer_wins `{PF : Platform} `{FS : FileSystem}
    (s : Auditor) (later : list str) (vst manufacturer : str) :
  vst_manufacturers s !! vst = Some manufacturer →
  (∀ local other,
     commit local (vst_manufacturers s) other !! vst = Some manufacturer)
  ∧ vst_manufacturers
      (fold_left (fun s file_path => (parse_als_file file_path s).2) later s)
    !! vst = Some manufacturer.
Proof.
  intros Hk. split; [intros; by apply commit_keeps |].
  revert s Hk; induction later as [|f later IH]; intros s Hk; simpl; [done |].
  by apply IH, parse_als_file_keeps.
Qed.

(** C4. A file that cannot be read or parsed makes [parse_als_file] return
    the empty list and change nothing, and the scan goes on: the counter
    and the registry after a scan are those of a scan of the same
    directory with the unreadable files gone. *)
Theorem corrupt_files_contribute_nothing `{PF : Platform} (FS FS' : FileSystem)
    (directory : str) (s s' : Auditor) :
  (∀ p, is_Some (@read_xml FS p) → @read_xml FS' p = @read_xml FS p) →
  @find_als_files PF FS' directory
  = filter (fun p => is_Some (@read_xml FS p)) (@find_als_files PF FS directory) →
  (∀ p s0, @read_xml FS p = None → @parse_als_file PF FS p s0 = ([], s0))
  ∧ vst_usage (@scan_directory PF FS directory s)
    = vst_usage (@scan_directory PF FS' directory s')
  ∧ project_vsts (@scan_directory PF FS directory s)
    = project_vsts (@scan_directory PF FS' directory s').
Proof.
  intros Hread Hfiles. split; [intros p s0; apply parse_als_file_failure |].
  destruct (@scan_directory_loop PF FS directory s)
    as (s0 & Hu0 & Hr0 & _ & -> & -> & _).
  destruct (@scan_directory_loop PF FS' directory s')
    as (s0' & Hu0' & Hr0' & _ & -> & -> & _).
  rewrite Hfiles.
  assert (vst_usage s0 = vst_usage s0') as Hu by congruence.
  assert (project_vsts s0 = project_vsts s0') as Hr by congruence.
  clear Hu0 Hr0 Hu0' Hr0' Hfiles.
  revert s0 s0' Hu Hr.
  induction (@find_als_files PF FS directory) as [|f files IH];
    intros s0 s0' Hu Hr; simpl; [done |].
  rewrite filter_cons. destruct (@read_xml FS f) as [root|] eqn:Hf.
  - rewrite decide_True by eauto. simpl. apply IH.
    + rewrite !scan_file_usage. unfold found_in.
      rewrite Hread by (rewrite Hf; eauto). by rewrite Hu.
    + rewrite !scan_file_registry. unfold found_in.
      rewrite Hread by (rewrite Hf; eauto). by rewrite Hr.
  - rewrite decide_False by (by intros [? ?]).
    destruct (@scan_file_skips_failure PF FS s0 s0' f Hf Hu Hr) as [Hu1 Hr1].
    by apply IH.
Qed.

(** ** The browser-path rule *)

Section BrowserPath.
Context `{PF : Platform}.
Import PyStr PyStrFacts.

Lemma split_without_sep (sep : N) (s : str) :
  contains [sep] s = false → split sep s = [s].
Proof.
  induction s as [|c s IH]; simpl; [done |].
  destruct (N.eqb_spec c sep) as [-> | Hne].
  - by rewrite N.eqb_refl.
  - rewrite (proj2 (N.eqb_neq sep c)) by congruence. simpl.
    intros H. by rewrite IH.
Qed.

Lemma name_match_spec (plugin_name vst : str) :
  name_match plugin_name vst = true
  ↔ has_substring (lower plugin_name) (lower vst)
    ∨ has_substring (lower vst) (lower plugin_name).
Proof. unfold name_match. by rewrite orb_true_iff, !contains_spec. Qed.

Lemma associate_other manufacturer plugin_name found
    (local : gmap str str) vst :
  name_match plugin_name vst = false →
  associate manufacturer plugin_name found local !! vst = local !! vst.
Proof.
  intros Hno. unfold associate.
  revert local; induction found as [|x found IH]; intros local; simpl; [done |].
  rewrite IH. destruct (name_match plugin_name x) eqn:Hx; [| done].
  rewrite lookup_insert_ne; [done | congruence].
Qed.

Lemma associate_stable manufacturer plugin_name found
    (local : gmap str str) vst :
  local !! vst = Some manufacturer →
  associate manufacturer plugin_name found local !! vst = Some manufacturer.
Proof.
  unfold associate.
  revert local; induction found as [|x found IH]; intros local Hl; simpl; [done |].
  apply IH. destruct (name_match plugin_name x); [| done].
  destruct (decide (x = vst)) as [-> | Hne].
  - apply lookup_insert_eq.
  - by rewrite lookup_insert_ne.
Qed.

Lemma associate_match manufacturer plugin_name found
    (local : gmap str str) vst :
  vst ∈ found →
  name_match plugin_name vst = true →
  associate manufacturer plugin_name found local !! vst = Some manufacturer.
Proof.
  intros Hin Hyes.
  revert local; induction found as [|x found IH]; intros local;
    [by apply elem_of_nil in Hin |].
  apply elem_of_cons in Hin as [<- | Hin].
  - change (associate manufacturer plugin_name (vst :: found) local)
      with (associate manufacturer plugin_name found
              (if name_match plugin_name vst
               then <[vst := manufacturer]> local else local)).
    rewrite Hyes. apply associate_stable, lookup_insert_eq.
  - by apply IH.
Qed.

Lemma note_child_name_local w child :
  local_manufacturers (note_child_name w child) = local_manufacturers w.
Proof.
  unfold note_child_name. destruct (text child) as [t|]; [| done].
  destruct (_ && _ && _); [| done]. by destruct (_ && _).
Qed.

(** Plugin-descriptor nodes add references, never manufacturers. *)
Lemma note_plugin_info_local e w :
  local_manufacturers (note_plugin_info e w) = local_manufacturers w.
Proof.
  unfold note_plugin_info. destruct (mem (tag e) plugin_info_tags); [| done].
  set (w1 := match OrdDict.get (lit "Name") (attrib e) with Some _ => _ | None => _ end).
  assert (local_manufacturers w1 = local_manufacturers w) as <-.
  { unfold w1. destruct (OrdDict.get (lit "Name") (attrib e)); [| done].
    by destruct (_ && _ && _). }
  generalize w1. induction (children e) as [|c cs IH]; intros w2; simpl; [done |].
  by rewrite IH, note_child_name_local.
Qed.

Lemma note_browser_path_fires e w value_elem browser_path :
  tag e = lit "BrowserContentPath" →
  find (lit "Value") e = Some value_elem →
  text value_elem = Some browser_path →
  has_substring (lit "Plugins#VST") browser_path →
  4 ≤ length (split (ord ":") browser_path) →
  local_manufacturers (note_browser_path e w)
  = associate (replace (lit "%20") (lit " ") (default [] (split (ord ":") browser_path !! 2)))
              (replace (lit "%20") (lit " ") (default [] (split (ord ":") browser_path !! 3)))
              (vsts_found w) (local_manufacturers w).
Proof.
  intros Htag Hfind Htext Hvst Hlen. unfold note_browser_path.
  rewrite Htag, bool_decide_eq_true_2 by done. rewrite Hfind, Htext.
  assert (contains (lit "Plugins#VST") browser_path = true) as ->
    by (by apply contains_spec).
  assert (truthy browser_path = true) as ->.
  { destruct Hvst as (pre & post & ->). by destruct pre. }
  assert (contains (lit ":") browser_path = true) as ->.
  { destruct (contains (lit ":") browser_path) eqn:E; [done |].
    rewrite (split_without_sep (ord ":")) in Hlen by done. simpl in Hlen. lia. }
  apply Nat.leb_le in Hlen. by rewrite Hlen.
Qed.

End BrowserPath.

(** C7. On a [BrowserContentPath] element whose [Value] child holds a
    colon-separated text with at least four fields and [Plugins#VST] in it,
    the walk decodes [%20] in the third and fourth field, and every
    reference found so far (this element's own text and attributes
    included) whose lower-cased name contains the lower-cased plugin name,
    or is contained in it, gets the decoded manufacturer in the file-local
    table, whatever the table held for it; the other references keep their
    entry. *)
Theorem browser_path_overrides `{PF : Platform} (w : Walk) (e value_elem : Element)
    (browser_path vst : str) :
  tag e = lit "BrowserContentPath" →
  find (lit "Value") e = Some value_elem →
  text value_elem = Some browser_path →
  has_substring (lit "Plugins#VST") browser_path →
  4 ≤ length (PyStr.split (ord ":") browser_path) →
  let fields := PyStr.split (ord ":") browser_path in
  let manufacturer := PyStr.replace (lit "%20") (lit " ") (default [] (fields !! 2)) in
  let plugin_name := PyStr.replace (lit "%20") (lit " ") (default [] (fields !! 3)) in
  let before := note_attribs e (note_text e w) in
  let matches :=
    has_substring (lower plugin_name) (lower vst)
    ∨ has_substring (lower vst) (lower plugin_name) in
  PyStr.join (lit ":") fields = browser_path
  ∧ (vst ∈ vsts_found before → matches →
     local_manufacturers (visit w e) !! vst = Some manufacturer)
  ∧ (¬ matches →
     local_manufacturers (visit w e) !! vst = local_manufacturers before !! vst).
Proof.
  intros Htag Hfind Htext Hvst Hlen fields manufacturer plugin_name before matches.
  split; [apply (PyStrFacts.join_split (ord ":")) |].
  unfold visit. rewrite note_plugin_info_local.
  rewrite (note_browser_path_fires e _ value_elem browser_path) by done.
  fold fields manufacturer plugin_name before. subst matches.
  rewrite <- name_match_spec. split.
  - intros Hin Hyes. by apply associate_match.
  - intros Hno. apply associate_other. by destruct (name_match plugin_name vst).
Qed.

(** ** The report *)

(** C8, as the code has it. When the Usage Counter is empty the report is
    the header (title, rule, time stamp and the two totals, the second of
    them 0) followed by the one line that says that no plugins were found;
    the four other sections are left out. *)
Theorem generate_report_no_plugins `{PF : Platform} (now : str) (s : Auditor) :
  vst_usage s = [] →
  generate_report now s = report_header now s ++ no_plugins_line
  ∧ generate_report now s
    = lit "ABLETON VST AUDIT REPORT" ++ nl
      ++ lit "==================================================" ++ nl
      ++ lit "Generated: " ++ now ++ nl
      ++ lit "Total Projects Scanned: " ++ str_of_nat (length (project_vsts s)) ++ nl
      ++ lit "Total Unique VSTs Found: 0" ++ nl
      ++ nl
      ++ lit "No VST plugins found in the scanned projects." ++ nl.
Proof.
  intros Hempty. unfold generate_report, report_header. rewrite Hempty.
  split; [done |]. unfold no_plugins_line.
  change (str_of_nat (length (@nil (str * nat)))) with (lit "0").
  change (repeat_str (lit "=") 50)
    with (lit "==================================================").
  by rewrite <- !app_assoc.
Qed.

(** ** The theorems at work on the studio *)

(** The scenario of two projects: the plugin used twice in the first and
    once in the second counts 2, the manufacturer is the one the first
    project supplied, the registry has two entries; the unreadable file
    has been passed over. *)
Example two_project_scenario :
  vst_usage used_auditor = [(lit "Widget.dll", 2)]
  ∧ vst_manufacturers used_auditor !! (lit "Widget.dll") = Some (lit "CompanyX")
  ∧ project_vsts used_auditor
    = [(lit "projects/one.als", [lit "Widget.dll"]); (lit "projects/sub/two.ALS", [lit "Widget.dll"])]
  ∧ processed_files used_auditor = 3.
Proof. vm_compute. done. Qed.

Example widget_twice_found_once :
  vsts_found (@walk posix widget_twice) = [lit "Widget.dll"].
Proof. vm_compute. reflexivity. Qed.

Example same_plugin_on_two_tracks :
  count_of (lit "Widget.dll") (vst_usage (@scan_file posix studio init (lit "projects/one.als"))) = 1.
Proof. vm_compute. reflexivity. Qed.

Example serum_project_resolved :
  local_manufacturers (@walk posix serum_project) !! (lit "Serum.dll") = Some (lit "Xfer Records").
Proof. vm_compute. reflexivity. Qed.

Example rule_A_windows_path :
  @extract_manufacturer_from_path posix (lit "C:\Program Files\VSTPlugins\Acme Audio\x64\Fuzz.DLL")
  = Some (lit "Acme Audio").
Proof. vm_compute. reflexivity. Qed.

Example rule_A_nothing_left :
  @extract_manufacturer_from_path posix (lit "C:\VST\eq\Fuzz.dll") = None.
Proof. vm_compute. reflexivity. Qed.

Example rule_B_table_order :
  @get_manufacturer_from_plugin_name posix (lit "Ozone Labs") = Some (lit "Spitfire Audio").
Proof. vm_compute. reflexivity. Qed.

Lemma manufacturer_first_writer_wins_witness :
  vst_manufacturers
    (fold_left (fun s file_path => (@parse_als_file posix studio file_path s).2)
               [lit "elsewhere/rival.als"; lit "projects/sub/two.ALS"]
               (@parse_als_file posix studio (lit "projects/one.als") init).2)
  !! (lit "Widget.dll") = Some (lit "CompanyX").
Proof.
  apply (@manufacturer_first_writer_wins posix studio
           (@parse_als_file posix studio (lit "projects/one.als") init).2
           [lit "elsewhere/rival.als"; lit "projects/sub/two.ALS"]
           (lit "Widget.dll") (lit "CompanyX")).
  vm_compute. reflexivity.
Defined.

(** Against C3: the mapping that the scan of [projects] filled is still
    there after a scan of a directory without project files. *)
Lemma scan_directory_keeps_mapping :
  @find_als_files posix studio (lit "empty") = []
  ∧ ¬ (vst_usage (@scan_directory posix studio (lit "empty") used_auditor) = []
       ∧ project_vsts (@scan_directory posix studio (lit "empty") used_auditor) = []
       ∧ vst_manufacturers (@scan_directory posix studio (lit "empty") used_auditor) = ∅).
Proof.
  split; [vm_compute; reflexivity |].
  intros (_ & _ & Hempty).
  assert (vst_manufacturers (@scan_directory posix studio (lit "empty") used_auditor)
          !! (lit "Widget.dll") = Some (lit "CompanyX")) as Hstill
    by (vm_compute; reflexivity).
  rewrite Hempty in Hstill. by rewrite lookup_empty in Hstill.
Qed.

Lemma corrupt_files_contribute_nothing_witness :
  vst_usage (@scan_directory posix studio (lit "projects") init)
  = vst_usage (@scan_directory posix tidy_studio (lit "projects") used_auditor).
Proof.
  destruct (@corrupt_files_contribute_nothing posix studio tidy_studio
              (lit "projects") init used_auditor) as (_ & Hu & _).
  - intros p _. reflexivity.
  - vm_compute. reflexivity.
  - exact Hu.
Defined.

Lemma browser_path_overrides_witness :
  local_manufacturers
    (@visit posix
       (@note_text posix (Elem (lit "Path") (Some (lit "Old Vendor/Serum.dll")) [] []) empty_walk)
       serum_browser)
  !! (lit "Serum.dll") = Some (lit "Xfer Records").
Proof.
  destruct (@browser_path_overrides posix
              (@note_text posix (Elem (lit "Path") (Some (lit "Old Vendor/Serum.dll")) [] [])
                 empty_walk)
              serum_browser serum_value
              (lit "query:Plugins#VST:Xfer%20Records:Serum") (lit "Serum.dll"))
    as (_ & Hmatch & _).
  - reflexivity.
  - reflexivity.
  - reflexivity.
  - exists (lit "query:"), (lit ":Xfer%20Records:Serum"). reflexivity.
  - vm_compute. lia.
  - apply Hmatch.
    + vm_compute. left.
    + left. exists [], (lit ".dll"). vm_compute. reflexivity.
Defined.

(** Against C8: the report of a fresh auditor is more than the one line. *)
Lemma generate_report_empty_has_header :
  vst_usage init = []
  ∧ @generate_report posix (lit "2024-05-01 12:00:00") init ≠ no_plugins_line.
Proof. split; [reflexivity |]. vm_compute. discriminate. Qed.

Lemma generate_report_no_plugins_witness :
  @generate_report posix (lit "2024-05-01 12:00:00") init
  = report_header (lit "2024-05-01 12:00:00") init ++ no_plugins_line.
Proof.
  apply (@generate_report_no_plugins posix (lit "2024-05-01 12:00:00") init).
  reflexivity.
Defined.

Lemma registry_lists_NoDup_witness : NoDup [lit "Widget.dll"].
Proof.
  apply (@registry_lists_NoDup posix studio (lit "projects") init
           (lit "projects/one.als") [lit "Widget.dll"]).
  vm_compute. left.
Defined.

Lemma usage_matches_registry_witness :
  count_of (lit "Widget.dll") (vst_usage used_auditor)
  = length (filter (fun entry : str * list str => (lit "Widget.dll") ∈ entry.2)
                   (project_vsts used_auditor)).
Proof.
  apply (@usage_matches_registry posix studio (lit "projects") init).
  apply (bool_decide_unpack _). vm_compute. exact I.
Defined.

(** * Further properties *)

(** ** What the walk finds *)

Section WalkOrigins.
Context `{PF : Platform}.
Import PyStr PyStrFacts.

Lemma note_dll_found raw w :
  vsts_found (note_dll raw w)
  = if truthy raw && contains (lit ".dll") (lower raw)
       && (truthy (basename (strip raw))
           && negb (mem (basename (strip raw)) (vsts_found w)))
    then vsts_found w ++ [basename (strip raw)]
    else vsts_found w.
Proof.
  unfold note_dll. destruct (truthy raw && contains (lit ".dll") (lower raw)); [| done].
  simpl. destruct (_ && _); [| done].
  destruct (extract_manufacturer_from_path (strip raw)); [| done].
  by destruct (_ && _).
Qed.

Lemma has_dll_truthy raw : has_substring (lit ".dll") (lower raw) → truthy raw = true.
Proof.
  intros (pre & post & H). destruct raw; [| done].
  rewrite lower_nil in H. symmetry in H.
  apply app_eq_nil in H as [_ [H _]%app_eq_nil]. vm_compute in H. discriminate.
Qed.

Lemma note_dll_origin raw w x :
  x ∈ vsts_found (note_dll raw w) →
  x ∈ vsts_found w
  ∨ (x ≠ [] ∧ has_substring (lit ".dll") (lower raw) ∧ x = basename (strip raw)).
Proof.
  rewrite note_dll_found.
  destruct (truthy raw && contains (lit ".dll") (lower raw)) eqn:E1; [| by left].
  destruct (truthy (basename (strip raw))) eqn:E2; [| by left].
  destruct (mem _ _); simpl; [by left |].
  intros [Hx | ->%list_elem_of_singleton]%elem_of_app; [by left | right].
  apply andb_true_iff in E1 as [_ E1].
  split; [by apply truthy_spec |]. split; [by apply contains_spec | done].
Qed.

Lemma note_attribs_origin e w x :
  x ∈ vsts_found (note_attribs e w) →
  x ∈ vsts_found w
  ∨ (x ≠ [] ∧ ∃ key raw, (key, raw) ∈ attrib e
                         ∧ has_substring (lit ".dll") (lower raw)
                         ∧ x = basename (strip raw)).
Proof.
  unfold note_attribs. revert w.
  induction (attrib e) as [|[key raw] l IH]; intros w; simpl; [by left |].
  intros [Hx | (Hne & k & r & Hin & Hdll & ->)]%IH.
  - apply note_dll_origin in Hx as [Hx | (Hne & Hdll & ->)]; [by left | right].
    split; [done |]. exists key, raw. split; [by left | done].
  - right. split; [done |]. exists k, r. split; [by right | done].
Qed.

Lemma note_attribs_finds e w key raw :
  (key, raw) ∈ attrib e →
  has_substring (lit ".dll") (lower raw) →
  basename (strip raw) ≠ [] →
  basename (strip raw) ∈ vsts_found (note_attribs e w).
Proof.
  intros Hin Hdll Hname. unfold note_attribs.
  apply list_elem_of_split in Hin as (l1 & l2 & ->).
  rewrite fold_left_app. simpl.
  set (w1 := fold_left _ l1 w).
  assert (extends (note_dll raw w1)
                  (fold_left (fun w kv => note_dll kv.2 w) l2 (note_dll raw w1))) as Hext.
  { generalize (note_dll raw w1) as w2. induction l2 as [|kv l2 IH]; intros w2;
      simpl; [apply extends_refl |].
    eapply extends_trans; [apply note_dll_extends | apply IH]. }
  apply Hext. apply note_dll_finds; [| done | done].
  apply truthy_spec. by apply has_dll_truthy.
Qed.

Lemma ends_with_spec suffix s : endswith suffix s = true ↔ ends_with suffix s.
Proof. apply endswith_spec. Qed.

Lemma ends_with_false suffix s : endswith suffix s = false ↔ ¬ ends_with suffix s.
Proof. rewrite <- ends_with_spec. by destruct (endswith suffix s). Qed.

Lemma note_child_name_found w child :
  vsts_found (note_child_name w child)
  = match text child with
    | Some raw =>
        if truthy raw && negb (endswith (lit ".dll") raw) && (length raw <? 100)
           && (truthy (strip raw) && negb (mem (strip raw) (vsts_found w)))
        then vsts_found w ++ [strip raw]
        else vsts_found w
    | None => vsts_found w
    end.
Proof.
  unfold note_child_name. destruct (text child) as [raw|]; [| done].
  destruct (_ && _ && _); [| done]. simpl. by destruct (_ && _).
Qed.

Lemma strip_truthy raw : truthy (strip raw) = true → truthy raw = true.
Proof. by destruct raw. Qed.

Lemma note_children_origin cs w x :
  x ∈ vsts_found (fold_left note_child_name cs w) →
  x ∈ vsts_found w
  ∨ (x ≠ [] ∧ ∃ child raw, child ∈ cs ∧ text child = Some raw
                           ∧ ¬ ends_with (lit ".dll") raw
                           ∧ length raw < 100 ∧ x = strip raw).
Proof.
  revert w; induction cs as [|c cs IH]; intros w; simpl; [by left |].
  intros [Hx | (Hne & child & raw & Hin & Hrest)]%IH.
  - rewrite note_child_name_found in Hx.
    destruct (text c) as [raw|] eqn:Htext; [| by left].
    destruct (truthy raw && negb (endswith (lit ".dll") raw) && (length raw <? 100))
      eqn:E1; [| by left].
    destruct (truthy (strip raw)) eqn:E2; [| by left].
    destruct (mem _ _); simpl in Hx; [by left |].
    apply elem_of_app in Hx as [Hx | ->%list_elem_of_singleton]; [by left | right].
    apply andb_true_iff in E1 as [[_ E1]%andb_true_iff E3].
    apply negb_true_iff, ends_with_false in E1. apply Nat.ltb_lt in E3.
    split; [by apply truthy_spec |].
    exists c, raw. split; [by left | done].
  - right. split; [done |]. exists child, raw. split; [by right | done].
Qed.

Lemma note_children_extend cs w : extends w (fold_left note_child_name cs w).
Proof.
  revert w; induction cs as [|c cs IH]; intros w; simpl; [apply extends_refl |].
  eapply extends_trans; [apply note_child_name_extends | apply IH].
Qed.

Lemma note_children_find cs w child raw :
  child ∈ cs →
  text child = Some raw →
  ¬ ends_with (lit ".dll") raw →
  length raw < 100 →
  strip raw ≠ [] →
  strip raw ∈ vsts_found (fold_left note_child_name cs w).
Proof.
  intros Hin Htext Hdll Hlen Hname.
  apply list_elem_of_split in Hin as (l1 & l2 & ->).
  rewrite fold_left_app. simpl. apply note_children_extend.
  rewrite note_child_name_found, Htext.
  apply truthy_spec in Hname. rewrite Hname, (strip_truthy _ Hname).
  apply ends_with_false in Hdll. rewrite Hdll.
  apply Nat.ltb_lt in Hlen. rewrite Hlen. simpl.
  destruct (mem (strip raw) _) eqn:Hmem; simpl.
  - by apply mem_spec.
  - apply elem_of_app. right. by left.
Qed.

(** The references after the [Name] attribute of a descriptor node has
    been looked at. *)
Lemma note_plugin_info_found e w :
  vsts_found (note_plugin_info e w)
  = if mem (tag e) plugin_info_tags then
      vsts_found
        (fold_left note_child_name (children e)
           match OrdDict.get (lit "Name") (attrib e) with
           | Some name =>
               if truthy name && negb (mem name (vsts_found w))
                  && negb (endswith (lit ".dll") name)
               then append_found name w else w
           | None => w
           end)
    else vsts_found w.
Proof. unfold note_plugin_info. by destruct (mem (tag e) plugin_info_tags). Qed.

Lemma visit_origin w e x :
  x ∈ vsts_found (visit w e) →
  x ∈ vsts_found w ∨ (x ≠ [] ∧ names_plugin e x).
Proof.
  unfold visit. rewrite note_plugin_info_found.
  assert (x ∈ vsts_found (note_browser_path e (note_attribs e (note_text e w))) →
          x ∈ vsts_found w ∨ (x ≠ [] ∧ names_plugin e x)) as Hdll.
  { rewrite note_browser_path_found.
    intros [Hx | (Hne & key & raw & Hin & Hdll & ->)]%note_attribs_origin.
    - unfold note_text in Hx. destruct (text e) as [raw|] eqn:Htext; [| by left].
      apply note_dll_origin in Hx as [Hx | (Hne & Hdll & ->)]; [by left | right].
      split; [done |]. by eapply names_by_text.
    - right. split; [done |]. by eapply names_by_attribute. }
  destruct (mem (tag e) plugin_info_tags) eqn:Htag; [| done].
  apply mem_spec in Htag.
  intros [Hx | (Hne & child & raw & Hin & Htext & Hends & Hlen & ->)]%note_children_origin.
  - destruct (OrdDict.get (lit "Name") (attrib e)) as [name|] eqn:Hname; [| by apply Hdll].
    destruct (truthy name) eqn:E1; simpl in Hx; [| by apply Hdll].
    destruct (mem name _); simpl in Hx; [by apply Hdll |].
    destruct (endswith (lit ".dll") name) eqn:E2; simpl in Hx; [by apply Hdll |].
    apply elem_of_app in Hx as [Hx | ->%list_elem_of_singleton]; [by apply Hdll |].
    right. split; [by apply truthy_spec |].
    apply names_by_name_attribute; [done | done | by apply ends_with_false].
  - right. split; [done |]. by eapply names_by_child.
Qed.

Lemma visit_finds w e x : x ≠ [] → names_plugin e x → x ∈ vsts_found (visit w e).
Proof.
  intros Hne Horigin. unfold visit.
  destruct Horigin as [raw Htext Hdll -> | key raw Hin Hdll ->
                      | Htag Hname Hends | child raw Htag Hin Htext Hends Hlen ->].
  - apply note_plugin_info_extends. rewrite note_browser_path_found.
    apply note_attribs_extends. unfold note_text. rewrite Htext.
    apply note_dll_finds; [| done | done].
    apply truthy_spec. by apply has_dll_truthy.
  - apply note_plugin_info_extends. rewrite note_browser_path_found.
    by eapply note_attribs_finds.
  - rewrite note_plugin_info_found.
    apply mem_spec in Htag as ->. rewrite Hname.
    apply note_children_extend.
    apply truthy_spec in Hne as ->. apply ends_with_false in Hends as ->.
    destruct (mem x _) eqn:Hmem; simpl.
    + by apply mem_spec.
    + apply elem_of_app. right. by left.
  - rewrite note_plugin_info_found.
    apply mem_spec in Htag as ->.
    by eapply note_children_find.
Qed.

Lemma visits_origin l w x :
  x ∈ vsts_found (fold_left visit l w) →
  x ∈ vsts_found w ∨ (x ≠ [] ∧ ∃ e, e ∈ l ∧ names_plugin e x).
Proof.
  revert w; induction l as [|e l IH]; intros w; simpl; [by left |].
  intros [Hx | (Hne & e' & Hin & Ho)]%IH.
  - apply visit_origin in Hx as [Hx | [Hne Ho]]; [by left | right].
    split; [done |]. exists e. split; [by left | done].
  - right. split; [done |]. exists e'. split; [by right | done].
Qed.

End WalkOrigins.

(** X1. The references that the walk over a document finds are exactly the
    non-empty names that some element of the document supplies: the base
    name of a text or attribute value that mentions [.dll], the [Name]
    attribute of a descriptor node unless it ends in [.dll], or the
    stripped text, shorter than 100 characters and not ending in [.dll],
    of a child of a descriptor node. *)
Theorem walk_finds_exactly `{PF : Platform} (root : Element) (name : str) :
  name ∈ vsts_found (walk root)
  ↔ name ≠ [] ∧ ∃ e, e ∈ iter root ∧ names_plugin e name.
Proof.
  unfold walk. split.
  - intros [Hx | H]%visits_origin; [by apply elem_of_nil in Hx | done].
  - intros (Hne & e & Hin & Ho).
    apply list_elem_of_split in Hin as (l1 & l2 & ->).
    rewrite fold_left_app. simpl. apply visits_extend. by apply visit_finds.
Qed.

(** ** The file-local table and the commit *)

Section TableFacts.
Context `{PF : Platform}.
Import PyStr PyStrFacts.

Lemma note_dll_table raw w k :
  k ∈ vsts_found w →
  local_manufacturers (note_dll raw w) !! k = local_manufacturers w !! k.
Proof.
  intros Hk. unfold note_dll. destruct (_ && _); [| done].
  destruct (truthy (basename (strip raw))); simpl; [| done].
  destruct (mem (basename (strip raw)) (vsts_found w)) eqn:Hmem; simpl; [done |].
  assert (basename (strip raw) ≠ k) as Hne.
  { intros Heq. rewrite Heq in Hmem. apply mem_spec in Hk. congruence. }
  destruct (extract_manufacturer_from_path (strip raw)); [| done].
  destruct (_ && _); simpl; [| done]. by rewrite lookup_insert_ne.
Qed.

Lemma note_attribs_table e w k :
  k ∈ vsts_found w →
  local_manufacturers (note_attribs e w) !! k = local_manufacturers w !! k.
Proof.
  unfold note_attribs. revert w.
  induction (attrib e) as [|kv l IH]; intros w Hk; simpl; [done |].
  rewrite IH by (by apply note_dll_extends). by apply note_dll_table.
Qed.

Lemma note_browser_path_other_tag e w :
  tag e ≠ lit "BrowserContentPath" → note_browser_path e w = w.
Proof. intros Htag. unfold note_browser_path. by rewrite bool_decide_eq_false_2. Qed.

Lemma note_dll_within raw w : table_within w → table_within (note_dll raw w).
Proof.
  intros Hw k. unfold note_dll. destruct (_ && _); [| by apply Hw].
  destruct (truthy (basename (strip raw))); simpl; [| by apply Hw].
  destruct (mem (basename (strip raw)) (vsts_found w)); simpl; [by apply Hw |].
  destruct (extract_manufacturer_from_path (strip raw)) as [m|];
    [destruct (_ && _) |]; simpl; intros Hk; apply elem_of_app.
  - apply lookup_insert_is_Some in Hk as [<- | [_ Hk]]; [right; by left |].
    left. by apply Hw.
  - left. by apply Hw.
  - left. by apply Hw.
Qed.

Lemma associate_within manufacturer plugin_name found
    (local : gmap str str) k :
  is_Some (associate manufacturer plugin_name found local !! k) →
  k ∈ found ∨ is_Some (local !! k).
Proof.
  unfold associate. revert local.
  induction found as [|x found IH]; intros local; simpl; [by right |].
  intros [Hk | Hk]%IH; [left; by right |].
  destruct (name_match plugin_name x); [| by right].
  apply lookup_insert_is_Some in Hk as [<- | [_ Hk]]; [left; by left | by right].
Qed.

Lemma note_browser_path_within e w :
  table_within w → table_within (note_browser_path e w).
Proof.
  intros Hw k. unfold note_browser_path. destruct (bool_decide _); [| by apply Hw].
  destruct (find (lit "Value") e) as [v|]; [| by apply Hw].
  destruct (text v) as [t|]; [| by apply Hw].
  destruct (_ && _ && _); [| by apply Hw].
  destruct (4 <=? _); [| by apply Hw]. simpl.
  intros [Hk | Hk]%associate_within; [done | by apply Hw].
Qed.

Lemma visit_within w e : table_within w → table_within (visit w e).
Proof.
  intros Hw. unfold visit.
  assert (table_within (note_browser_path e (note_attribs e (note_text e w)))) as H.
  { apply note_browser_path_within.
    assert (table_within (note_text e w)) as Ht.
    { unfold note_text. destruct (text e); [by apply note_dll_within | done]. }
    unfold note_attribs. revert Ht. generalize (note_text e w) as w1.
    induction (attrib e) as [|kv l IH]; intros w1 Hw1; simpl; [done |].
    by apply IH, note_dll_within. }
  intros k Hk. rewrite note_plugin_info_local in Hk.
  by apply note_plugin_info_extends, H.
Qed.

Lemma walk_within root : table_within (walk root).
Proof.
  unfold walk. assert (table_within empty_walk) as H0.
  { intros k [v Hv]. simpl in Hv. by rewrite lookup_empty in Hv. }
  revert H0. generalize empty_walk as w.
  induction (iter root) as [|e l IH]; intros w Hw; simpl; [done |].
  by apply IH, visit_within.
Qed.

End TableFacts.

Section CommitFacts.
Context `{PF : Platform} `{FS : FileSystem}.
Import PyStr PyStrFacts.

Lemma first_pattern_truthy table name vendor :
  (∀ pattern v, (pattern, v) ∈ table → truthy v = true) →
  first_pattern table name = Some vendor → truthy vendor = true.
Proof.
  induction table as [|[pattern v] table IH]; intros Hall; simpl; [done |].
  destruct (contains pattern name).
  - intros [= <-]. apply (Hall pattern). by left.
  - apply IH. intros p' v' Hin. apply (Hall p'). by right.
Qed.

(** Rule B never answers with an empty name. *)
Lemma rule_B_truthy name vendor :
  get_manufacturer_from_plugin_name name = Some vendor → truthy vendor = true.
Proof.
  unfold get_manufacturer_from_plugin_name. destruct (negb (truthy name)); [done |].
  apply first_pattern_truthy. intros pattern v Hin.
  assert (Forall (fun pv : str * str => truthy pv.2 = true)
                 manufacturer_patterns) as Hall
    by (repeat constructor).
  rewrite Forall_forall in Hall. by apply (Hall (pattern, v)).
Qed.

Lemma or_else_truthy a b : truthy b = true → truthy (or_else a b) = true.
Proof. intros Hb. unfold or_else. destruct a as [s|]; [| done]. by destruct (truthy s) eqn:E. Qed.

Lemma resolved_truthy local vst : truthy (resolved local vst) = true.
Proof. unfold resolved. by apply or_else_truthy, or_else_truthy. Qed.

Lemma commit_lookup local (manufacturers : gmap str str) vst k :
  commit local manufacturers vst !! k
  = match manufacturers !! k with
    | Some v => Some v
    | None => if decide (k = vst) then Some (resolved local vst) else None
    end.
Proof.
  unfold commit. case_bool_decide as Hin.
  - destruct (manufacturers !! k) eqn:Hk; [done |].
    case_decide; [subst; by destruct Hin as [? ?]; congruence | done].
  - destruct (decide (k = vst)) as [-> | Hne].
    + rewrite lookup_insert_eq. destruct (manufacturers !! vst) eqn:Hk; [| done].
      destruct Hin. eauto.
    + rewrite lookup_insert_ne by done. by destruct (manufacturers !! k).
Qed.

Lemma commits_lookup local found (manufacturers : gmap str str) k :
  fold_left (commit local) found manufacturers !! k
  = match manufacturers !! k with
    | Some v => Some v
    | None => if decide (k ∈ found) then Some (resolved local k) else None
    end.
Proof.
  revert manufacturers; induction found as [|x found IH]; intros manufacturers; simpl.
  - by destruct (manufacturers !! k).
  - rewrite IH, commit_lookup. destruct (manufacturers !! k) eqn:Hk; [done |].
    destruct (decide (k = x)) as [-> | Hne].
    + by rewrite decide_True by (by left).
    + destruct (decide (k ∈ found)) as [Hin | Hout].
      * by rewrite decide_True by (by right).
      * rewrite decide_False; [done |]. by intros [? | ?]%elem_of_cons.
Qed.

(** The mapping after [parse_als_file], key by key. *)
Lemma parse_als_file_lookup f s k :
  vst_manufacturers (parse_als_file f s).2 !! k
  = match vst_manufacturers s !! k with
    | Some v => Some v
    | None =>
        match read_xml f with
        | Some root =>
            if decide (k ∈ vsts_found (walk root))
            then Some (resolved (local_manufacturers (walk root)) k) else None
        | None => None
        end
    end.
Proof.
  unfold parse_als_file. destruct (read_xml f) as [root|]; simpl.
  - apply commits_lookup.
  - by destruct (vst_manufacturers s !! k).
Qed.

End CommitFacts.

(** ** The scan, file by file *)

Section LoopFacts.
Context `{PF : Platform} `{FS : FileSystem}.
Import OrdDict OrdDictFacts.

(** The part of the auditor that [parse_als_file] and the accounting leave
    alone. *)
Lemma parse_als_file_frame f s :
  processed_files (parse_als_file f s).2 = processed_files s
  ∧ total_files (parse_als_file f s).2 = total_files s
  ∧ current_file (parse_als_file f s).2 = current_file s
  ∧ progress_callback (parse_als_file f s).2 = progress_callback s
  ∧ progress_log (parse_als_file f s).2 = progress_log s.
Proof. unfold parse_als_file. by destruct (read_xml f). Qed.

Lemma update_progress_callback m s :
  progress_callback (update_progress m s) = progress_callback s.
Proof. unfold update_progress. by destruct (progress_callback s) eqn:E. Qed.

Lemma update_progress_current m s :
  current_file (update_progress m s) = current_file s.
Proof. unfold update_progress. by destruct (progress_callback s). Qed.

Lemma update_progress_log m s :
  progress_log (update_progress m s)
  = progress_log s ++ (if progress_callback s then [m] else []).
Proof.
  unfold update_progress. destruct (progress_callback s); simpl; [done |].
  by rewrite app_nil_r.
Qed.

Lemma scan_file_frame s f :
  processed_files (scan_file s f) = processed_files s + 1
  ∧ total_files (scan_file s f) = total_files s
  ∧ current_file (scan_file s f) = basename f
  ∧ progress_callback (scan_file s f) = progress_callback s
  ∧ progress_log (scan_file s f)
    = progress_log s
      ++ (if progress_callback s then [lit "Processing: " ++ basename f] else []).
Proof.
  unfold scan_file. set (s1 := update_progress _ _).
  destruct (parse_als_file_frame f s1) as (Hp & Ht & Hc & Hb & Hl).
  destruct (parse_als_file f s1) as [vsts s2]. simpl in *.
  unfold s1 in *.
  rewrite update_progress_processed in Hp. rewrite update_progress_total in Ht.
  rewrite update_progress_current in Hc. rewrite update_progress_callback in Hb.
  rewrite update_progress_log in Hl. simpl in *.
  destruct vsts; simpl; rewrite Hp, Ht, Hc, Hb, Hl; done.
Qed.

Lemma scan_files_frame files s :
  processed_files (fold_left scan_file files s) = processed_files s + length files
  ∧ total_files (fold_left scan_file files s) = total_files s
  ∧ current_file (fold_left scan_file files s)
    = default (current_file s) (basename <$> last files)
  ∧ progress_callback (fold_left scan_file files s) = progress_callback s
  ∧ progress_log (fold_left scan_file files s)
    = progress_log s
      ++ (if progress_callback s
          then (fun f => lit "Processing: " ++ basename f) <$> files else []).
Proof.
  revert s; induction files as [|f files IH]; intros s; simpl.
  - split; [lia |]. split; [done |]. split; [done |]. split; [done |].
    destruct (progress_callback s); by rewrite app_nil_r.
  - destruct (IH (scan_file s f)) as (Hp & Ht & Hc & Hb & Hl).
    destruct (scan_file_frame s f) as (Hp1 & Ht1 & Hc1 & Hb1 & Hl1).
    rewrite Hp, Ht, Hc, Hb, Hl, Hp1, Ht1, Hc1, Hb1, Hl1.
    split; [lia |]. split; [done |]. split.
    { destruct files as [|g files]; [done |]. rewrite last_cons_cons.
      destruct (last (g :: files)) eqn:E; [done |]. by apply last_None in E. }
    split; [done |].
    destruct (progress_callback s); rewrite <- app_assoc; [done |].
    by rewrite !app_nil_r.
Qed.

(** The count of a reference after the loop. *)
Lemma scan_files_count files s p :
  count_of p (vst_usage (fold_left scan_file files s))
  = count_of p (vst_usage s)
    + length (filter (fun f => p ∈ found_in f) files).
Proof.
  revert s; induction files as [|f files IH]; intros s; simpl; [lia |].
  rewrite IH, scan_file_usage.
  rewrite count_of_increments by apply list_of_set_NoDup.
  rewrite filter_cons. pose proof (list_of_set_elem (found_in f) p).
  repeat case_decide; simpl; try lia; tauto.
Qed.

Lemma scan_files_usage_keys files s p :
  p ∈ keys (vst_usage (fold_left scan_file files s))
  ↔ p ∈ keys (vst_usage s) ∨ ∃ f, f ∈ files ∧ p ∈ found_in f.
Proof.
  revert s; induction files as [|f files IH]; intros s; simpl.
  - split; [by left | intros [? | (? & ?%elem_of_nil & _)]; done].
  - rewrite IH, scan_file_usage, elem_of_keys_increments, list_of_set_elem.
    split.
    + intros [[Hp | Hp] | (g & Hg & Hp)]; [right | by left | right].
      * exists f. split; [by left | done].
      * exists g. split; [by right | done].
    + intros [Hp | (g & [-> | Hg]%elem_of_cons & Hp)]; [left; by right | |].
      * left. by left.
      * right. eauto.
Qed.

Lemma keys_set_NoDup {V : Type} k (v : V) d :
  NoDup (keys d) → NoDup (keys (set k v d)).
Proof.
  unfold keys. induction d as [|[k0 v0] d IH]; simpl.
  - intros _. apply NoDup_singleton.
  - rewrite !NoDup_cons. intros [Hk0 Hd]. case_decide; simpl.
    + subst. by apply NoDup_cons.
    + apply NoDup_cons. split; [| by apply IH].
      intros [? | ?]%(elem_of_keys_set k v d k0); [congruence | done].
Qed.

Lemma keys_increments_NoDup l usage :
  NoDup (keys usage) → NoDup (keys (fold_left increment l usage)).
Proof.
  revert usage; induction l as [|x l IH]; intros usage Hnd; simpl; [done |].
  apply IH. by apply keys_set_NoDup.
Qed.

Lemma elem_of_set_same {V : Type} k (v : V) d : (k, v) ∈ set k v d.
Proof.
  induction d as [|[k0 v0] d IH]; simpl; [by left |].
  case_decide; [by left | by right].
Qed.

Lemma elem_of_set_other {V : Type} k (v : V) d k' v' :
  k' ≠ k → (k', v') ∈ d → (k', v') ∈ set k v d.
Proof.
  intros Hne. induction d as [|[k0 v0] d IH]; simpl; [by intros ?%elem_of_nil |].
  intros [Heq | Hin]%elem_of_cons.
  - injection Heq as <- <-. case_decide; [congruence | by left].
  - case_decide; right; [done | by apply IH].
Qed.

Lemma scan_files_registered files seen s :
  registered seen (project_vsts s) →
  registered (seen ++ files) (project_vsts (fold_left scan_file files s)).
Proof.
  revert seen s; induction files as [|f files IH]; intros seen s Hs; simpl.
  - by rewrite app_nil_r.
  - replace (seen ++ f :: files) with ((seen ++ [f]) ++ files)
      by (by rewrite <- app_assoc).
    apply IH. destruct Hs as [Hnd Hs]. rewrite scan_file_registry.
    destruct (list_of_set (found_in f)) as [|v vs] eqn:E.
    + split; [done |]. intros path vsts. rewrite Hs, elem_of_app. split.
      * intros (? & ? & ?). split; [by left | done].
      * intros ([Hin | ->%list_elem_of_singleton] & -> & Hne); [done |].
        congruence.
    + rewrite <- E. split; [by apply keys_set_NoDup |].
      intros path vsts. split.
      * intros [Heq | Hin]%elem_of_set.
        -- injection Heq as -> ->. split; [apply elem_of_app; right; by left |].
           split; [done | congruence].
        -- apply Hs in Hin as (? & ? & ?). split; [apply elem_of_app; by left | done].
      * intros (Hin & -> & Hne).
        destruct (decide (path = f)) as [-> | Hpf]; [apply elem_of_set_same |].
        apply elem_of_set_other; [done |]. apply Hs.
        apply elem_of_app in Hin as [Hin | ->%list_elem_of_singleton]; done.
Qed.

(** A parse that finds only references the mapping already holds leaves
    the mapping as it is. *)
Lemma parse_als_file_known f s :
  (∀ k, k ∈ found_in f → is_Some (vst_manufacturers s !! k)) →
  vst_manufacturers (parse_als_file f s).2 = vst_manufacturers s.
Proof.
  intros Hknown. apply map_eq. intros k. rewrite parse_als_file_lookup.
  destruct (vst_manufacturers s !! k) eqn:Hk; [done |].
  unfold found_in in Hknown. destruct (read_xml f) as [root|]; [| done].
  case_decide as Hin; [| done].
  apply Hknown in Hin as [v Hv]. congruence.
Qed.

Lemma parse_als_file_keys f s k :
  is_Some (vst_manufacturers (parse_als_file f s).2 !! k)
  ↔ is_Some (vst_manufacturers s !! k) ∨ k ∈ found_in f.
Proof.
  rewrite parse_als_file_lookup. unfold found_in.
  destruct (vst_manufacturers s !! k) eqn:Hk.
  - split; [left; eauto | eauto].
  - destruct (read_xml f) as [root|].
    + case_decide; split; eauto.
      * intros [[? ?] | ?]; [done | done].
    + split; [by intros [? ?] | intros [[? ?] | ?%elem_of_nil]; done].
Qed.

Lemma scan_files_mapping_keys files s k :
  is_Some (vst_manufacturers (fold_left scan_file files s) !! k)
  ↔ is_Some (vst_manufacturers s !! k) ∨ ∃ f, f ∈ files ∧ k ∈ found_in f.
Proof.
  revert s; induction files as [|f files IH]; intros s; simpl.
  - split; [by left | intros [? | (? & ?%elem_of_nil & _)]; done].
  - rewrite IH, scan_file_manufacturers, parse_als_file_keys. split.
    + intros [[Hk | Hk] | (g & Hg & Hk)]; [by left | right | right].
      * exists f. split; [by left | done].
      * exists g. split; [by right | done].
    + intros [Hk | (g & [-> | Hg]%elem_of_cons & Hk)]; [left; by left | |].
      * left. by right.
      * right. eauto.
Qed.

Lemma scan_files_known files s :
  (∀ f k, f ∈ files → k ∈ found_in f → is_Some (vst_manufacturers s !! k)) →
  vst_manufacturers (fold_left scan_file files s) = vst_manufacturers s.
Proof.
  revert s; induction files as [|f files IH]; intros s Hknown; simpl; [done |].
  assert (vst_manufacturers (scan_file s f) = vst_manufacturers s) as Hf.
  { rewrite scan_file_manufacturers. apply parse_als_file_known.
    intros k. apply Hknown. by left. }
  rewrite IH; [done |]. intros g k Hg Hk. rewrite Hf. apply (Hknown g); [by right | done].
Qed.

Lemma scan_files_truthy files s :
  (∀ k v, vst_manufacturers s !! k = Some v → v ≠ []) →
  ∀ k v, vst_manufacturers (fold_left scan_file files s) !! k = Some v → v ≠ [].
Proof.
  revert s; induction files as [|f files IH]; intros s Hs; simpl; [done |].
  apply IH. intros k v. rewrite scan_file_manufacturers, parse_als_file_lookup.
  destruct (vst_manufacturers s !! k) eqn:Hk; [intros [= <-]; by eapply Hs |].
  destruct (read_xml f) as [root|]; [| done]. case_decide; [| done].
  intros [= <-]. apply PyStrFacts.truthy_spec, resolved_truthy.
Qed.

End LoopFacts.

(** ** The scan of a directory *)

Section DirectoryFacts.
Context `{PF : Platform} `{FS : FileSystem}.
Import OrdDict OrdDictFacts.

(** The auditor that enters the loop. *)
Lemma scan_directory_unfold directory s :
  let files := find_als_files directory in
  let s0 :=
    set_total_files (length files)
      (update_progress (lit "Finding .als files...")
         (set_processed_files 0 (set_project_vsts [] (set_vst_usage [] s)))) in
  let s1 :=
    update_progress
      (lit "Found " ++ str_of_nat (length files) ++ lit " .als files. Starting scan...")
      s0 in
  scan_directory directory s
  = match files with
    | [] => update_progress (lit "No .als files found in directory") s0
    | _ :: _ =>
        update_progress
          ((lit "Scan complete! Found ")
           ++ str_of_nat (length (vst_usage (fold_left scan_file files s1)))
           ++ lit " unique VSTs")
          (fold_left scan_file files s1)
    end.
Proof. reflexivity. Qed.

(** Field by field: the scan is the loop run on a cleared auditor. *)
Lemma scan_directory_fields directory s :
  ∃ s1,
    (vst_usage s1 = [] ∧ project_vsts s1 = []
     ∧ vst_manufacturers s1 = vst_manufacturers s
     ∧ processed_files s1 = 0
     ∧ total_files s1 = length (find_als_files directory)
     ∧ current_file s1 = current_file s)
    ∧ let s' := fold_left scan_file (find_als_files directory) s1 in
      vst_usage (scan_directory directory s) = vst_usage s'
      ∧ project_vsts (scan_directory directory s) = project_vsts s'
      ∧ vst_manufacturers (scan_directory directory s) = vst_manufacturers s'
      ∧ processed_files (scan_directory directory s) = processed_files s'
      ∧ total_files (scan_directory directory s) = total_files s'
      ∧ current_file (scan_directory directory s) = current_file s'.
Proof.
  rewrite scan_directory_unfold.
  set (s0 := set_total_files _ _).
  exists (update_progress
            (lit "Found " ++ str_of_nat (length (find_als_files directory))
             ++ lit " .als files. Starting scan...") s0).
  split.
  - unfold s0. rewrite update_progress_current. auditor_simpl.
    by rewrite update_progress_current.
  - cbv zeta. fold s0. destruct (find_als_files directory) as [|f l] eqn:E.
    + simpl. rewrite !update_progress_current. by auditor_simpl.
    + rewrite !update_progress_current. by auditor_simpl.
Qed.

Lemma scan_directory_frame directory s :
  processed_files (scan_directory directory s) = length (find_als_files directory)
  ∧ total_files (scan_directory directory s) = length (find_als_files directory)
  ∧ current_file (scan_directory directory s)
    = default (current_file s) (basename <$> last (find_als_files directory)).
Proof.
  destruct (scan_directory_fields directory s)
    as (s1 & (_ & _ & _ & Hp & Ht & Hc) & _ & _ & _ & -> & -> & ->).
  destruct (scan_files_frame (find_als_files directory) s1) as (-> & -> & -> & _).
  rewrite Hp, Ht, Hc. done.
Qed.

Lemma scan_directory_same_counts directory s s' :
  vst_usage (scan_directory directory s) = vst_usage (scan_directory directory s')
  ∧ project_vsts (scan_directory directory s)
    = project_vsts (scan_directory directory s').
Proof.
  destruct (scan_directory_fields directory s)
    as (s1 & (Hu & Hr & _) & -> & -> & _).
  destruct (scan_directory_fields directory s')
    as (s1' & (Hu' & Hr' & _) & -> & -> & _).
  apply scan_files_usage_registry; congruence.
Qed.

End DirectoryFacts.

(** C3, as the code has it. At its start [scan_directory] empties the
    Usage Counter and the Project Registry and sets the count of processed
    files to 0: whatever the three held, the scan ends in the same state,
    and the counter, the registry and the two counts after it do not
    depend on the earlier state at all; the count of all files becomes the
    number of files found. The Manufacturer Mapping is cleared neither by
    [scan_directory] nor by [parse_als_file]: every entry that it held
    before the scan is there after it and after any further scans. So a
    scan of a directory without project files, from any earlier state,
    leaves the counter and the registry empty and both counts at 0, and
    the mapping as it was. *)
Theorem scan_directory_without_files `{PF : Platform} `{FS : FileSystem}
    (directory : str) (s : Auditor) :
  let s' := scan_directory directory s in
  (∀ usage registry n,
     scan_directory directory
       (set_processed_files n (set_project_vsts registry (set_vst_usage usage s)))
     = s')
  ∧ (∀ earlier,
       vst_usage (scan_directory directory earlier) = vst_usage s'
       ∧ project_vsts (scan_directory directory earlier) = project_vsts s'
       ∧ processed_files (scan_directory directory earlier) = processed_files s'
       ∧ total_files (scan_directory directory earlier) = total_files s')
  ∧ total_files s' = length (find_als_files directory)
  ∧ (∀ vst manufacturer later,
       vst_manufacturers s !! vst = Some manufacturer →
       vst_manufacturers (fold_left (fun s d => scan_directory d s) later s')
       !! vst = Some manufacturer)
  ∧ (∀ vst manufacturer file_path,
       vst_manufacturers s !! vst = Some manufacturer →
       vst_manufacturers (parse_als_file file_path s).2 !! vst = Some manufacturer)
  ∧ (find_als_files directory = [] →
     vst_usage s' = [] ∧ project_vsts s' = []
     ∧ processed_files s' = 0 ∧ total_files s' = 0
     ∧ vst_manufacturers s' = vst_manufacturers s).
Proof.
  intros s'. subst s'. split; [done |]. split; [| split; [| split; [| split]]].
  - intros earlier.
    destruct (scan_directory_same_counts directory earlier s) as [-> ->].
    destruct (scan_directory_frame directory earlier) as (-> & -> & _).
    destruct (scan_directory_frame directory s) as (-> & -> & _). done.
  - apply scan_directory_frame.
  - intros vst manufacturer later Hk.
    apply (scan_directory_keeps directory) in Hk.
    revert Hk. generalize (scan_directory directory s).
    induction later as [|d later IH]; intros s0 Hk; simpl; [done |].
    by apply IH, scan_directory_keeps.
  - intros vst manufacturer file_path. apply parse_als_file_keeps.
  - intros Hfiles. unfold scan_directory. rewrite Hfiles. auditor_simpl. done.
Qed.

(** X2. After [scan_directory] both counters equal the number of project
    files that the walk of the directory yielded, unreadable ones
    included, and [current_file] is the base name of the last of them. *)
Theorem scan_directory_counters `{PF : Platform} `{FS : FileSystem}
    (directory : str) (s : Auditor) :
  let s' := scan_directory directory s in
  processed_files s' = length (find_als_files directory)
  ∧ total_files s' = length (find_als_files directory)
  ∧ current_file s'
    = default (current_file s) (basename <$> last (find_als_files directory)).
Proof. apply scan_directory_frame. Qed.

(** X3. After [scan_directory] the count of a reference is the number of
    project files of the directory in which the walk finds it; it is at
    most the number of files, the counted references are those with a
    positive count, and no reference is counted under two keys. *)
Theorem scan_directory_counts_files `{PF : Platform} `{FS : FileSystem}
    (directory : str) (s : Auditor) (p : str) :
  let s' := scan_directory directory s in
  count_of p (vst_usage s')
  = length (filter (fun f => p ∈ found_in f) (find_als_files directory))
  ∧ count_of p (vst_usage s') ≤ total_files s'
  ∧ (p ∈ OrdDict.keys (vst_usage s') ↔ 0 < count_of p (vst_usage s'))
  ∧ NoDup (OrdDict.keys (vst_usage s')).
Proof.
  intros s'. subst s'.
  destruct (scan_directory_frame directory s) as (_ & Htotal & _).
  rewrite Htotal. clear Htotal.
  destruct (scan_directory_fields directory s)
    as (s1 & (Hu & _ & _ & _ & _ & _) & -> & _ & _ & _ & _ & _).
  set (files := find_als_files directory).
  assert (count_of p (vst_usage (fold_left scan_file files s1))
          = length (filter (fun f => p ∈ found_in f) files)) as Hcount.
  { rewrite scan_files_count, Hu. done. }
  rewrite Hcount. split; [done |]. split; [apply length_filter |]. split.
  - rewrite scan_files_usage_keys, Hu. split.
    + intros [Hp%elem_of_nil | (f & Hf & Hp)]; [done |].
      assert (f ∈ filter (fun f => p ∈ found_in f) files) as Hin
        by (by apply list_elem_of_filter).
      destruct (filter _ files); [by apply elem_of_nil in Hin | simpl; lia].
    + intros Hpos. right.
      destruct (filter (fun f => p ∈ found_in f) files) as [|f l] eqn:E;
        [simpl in Hpos; lia |].
      assert (f ∈ filter (fun f => p ∈ found_in f) files) as Hin
        by (rewrite E; by left).
      apply list_elem_of_filter in Hin as [? ?]. eauto.
  - assert (∀ l s2, NoDup (OrdDict.keys (vst_usage s2)) →
                    NoDup (OrdDict.keys (vst_usage (fold_left scan_file l s2)))) as Hnd.
    { induction l as [|f l IH]; intros s2 H2; simpl; [done |].
      apply IH. rewrite scan_file_usage. by apply keys_increments_NoDup. }
    apply Hnd. rewrite Hu. apply NoDup_nil_2.
Qed.

(** X4. After [scan_directory] the Project Registry holds exactly one entry
    for every project file of the directory in which the walk found a
    reference, with the list that the parser returned for it; a file
    without references has no entry, so the registry is never longer than
    the list of files. *)
Theorem scan_directory_registry `{PF : Platform} `{FS : FileSystem}
    (directory : str) (s : Auditor) :
  let s' := scan_directory directory s in
  NoDup (OrdDict.keys (project_vsts s'))
  ∧ (∀ project_path vsts,
       (project_path, vsts) ∈ project_vsts s'
       ↔ project_path ∈ find_als_files directory
         ∧ vsts = list_of_set (found_in project_path)
         ∧ vsts ≠ [])
  ∧ length (project_vsts s') ≤ total_files s'.
Proof.
  intros s'. subst s'.
  destruct (scan_directory_frame directory s) as (_ & Htotal & _).
  rewrite Htotal. clear Htotal.
  destruct (scan_directory_fields directory s)
    as (s1 & (_ & Hr & _ & _ & _ & _) & _ & -> & _ & _ & _ & _).
  destruct (scan_files_registered (find_als_files directory) [] s1) as [Hnd Hreg].
  { rewrite Hr. split; [apply NoDup_nil_2 |].
    intros path vsts. split; [by intros ?%elem_of_nil |].
    by intros (?%elem_of_nil & _). }
  simpl in Hreg. split; [done |]. split; [done |].
  rewrite <- (length_fmap fst). apply submseteq_length, NoDup_submseteq; [done |].
  intros path Hpath. apply list_elem_of_fmap in Hpath as ([p vsts] & -> & Hin).
  by apply Hreg in Hin as (? & _).
Qed.

(** X5. After [scan_directory] the Manufacturer Mapping holds the
    references it held before and the counted references, no others; in
    particular every counted reference has a manufacturer. *)
Theorem scan_directory_mapping_keys `{PF : Platform} `{FS : FileSystem}
    (directory : str) (s : Auditor) (vst : str) :
  let s' := scan_directory directory s in
  is_Some (vst_manufacturers s' !! vst)
  ↔ is_Some (vst_manufacturers s !! vst) ∨ vst ∈ OrdDict.keys (vst_usage s').
Proof.
  intros s'. subst s'.
  destruct (scan_directory_fields directory s)
    as (s1 & (Hu & _ & Hm & _ & _ & _) & -> & _ & -> & _ & _ & _).
  rewrite scan_files_mapping_keys, scan_files_usage_keys, Hu, Hm.
  split; intros [? | ?]; try (by left); right; [by right |].
  destruct H as [?%elem_of_nil | ?]; done.
Qed.

(** X6. The manufacturers that a scan adds are never the empty string: if
    the mapping held no empty name before [scan_directory], it holds none
    afterwards. *)
Theorem scan_directory_manufacturers_named `{PF : Platform} `{FS : FileSystem}
    (directory : str) (s : Auditor) :
  (∀ vst manufacturer,
     vst_manufacturers s !! vst = Some manufacturer → manufacturer ≠ []) →
  ∀ vst manufacturer,
    vst_manufacturers (scan_directory directory s) !! vst = Some manufacturer →
    manufacturer ≠ [].
Proof.
  intros Hs.
  destruct (scan_directory_fields directory s)
    as (s1 & (_ & _ & Hm & _ & _ & _) & _ & _ & -> & _ & _ & _).
  apply scan_files_truthy. by rewrite Hm.
Qed.

(** X7. The counter and the registry that [scan_directory] produces do not
    depend on the auditor it starts from. *)
Theorem scan_directory_forgets `{PF : Platform} `{FS : FileSystem}
    (directory : str) (s s' : Auditor) :
  vst_usage (scan_directory directory s) = vst_usage (scan_directory directory s')
  ∧ project_vsts (scan_directory directory s)
    = project_vsts (scan_directory directory s').
Proof. apply scan_directory_same_counts. Qed.

(** X8. Scanning the same directory again changes nothing: the counter,
    the registry, the mapping, both counts and [current_file] are those of
    the first scan. *)
Theorem scan_directory_twice `{PF : Platform} `{FS : FileSystem}
    (directory : str) (s : Auditor) :
  let once := scan_directory directory s in
  let twice := scan_directory directory once in
  vst_usage twice = vst_usage once
  ∧ project_vsts twice = project_vsts once
  ∧ vst_manufacturers twice = vst_manufacturers once
  ∧ processed_files twice = processed_files once
  ∧ total_files twice = total_files once
  ∧ current_file twice = current_file once.
Proof.
  intros once twice. subst twice.
  destruct (scan_directory_same_counts directory once s) as [Hu Hr].
  split; [done |]. split; [done |].
  destruct (scan_directory_frame directory once) as (-> & -> & ->).
  destruct (scan_directory_frame directory s) as (Hp & Ht & Hc).
  fold once in Hp, Ht, Hc. rewrite Hp, Ht.
  split; [| split; [done | split; [done |]]].
  - destruct (scan_directory_fields directory once)
      as (s1 & (_ & _ & Hm & _ & _ & _) & _ & _ & -> & _ & _ & _).
    rewrite <- Hm. apply scan_files_known. intros f k Hf Hk. rewrite Hm.
    unfold once.
    destruct (scan_directory_fields directory s)
      as (s0 & _ & _ & _ & -> & _ & _ & _).
    apply scan_files_mapping_keys. right. eauto.
  - rewrite Hc. by destruct (last (find_als_files directory)).
Qed.

(** X9. The progress messages of a scan: none without a callback; with a
    callback the announcement of the search, then either the notice that
    no project files were found, or the number of files, one message per
    file in the order of the scan, and the closing count of distinct
    references. *)
Theorem scan_directory_progress `{PF : Platform} `{FS : FileSystem}
    (directory : str) (s : Auditor) :
  let s' := scan_directory directory s in
  let files := find_als_files directory in
  progress_log s'
  = progress_log s
    ++ (if progress_callback s then
          (lit "Finding .als files...")
          :: match files with
             | [] => [lit "No .als files found in directory"]
             | _ :: _ =>
                 (lit "Found " ++ str_of_nat (length files)
                  ++ lit " .als files. Starting scan...")
                 :: ((fun f => lit "Processing: " ++ basename f) <$> files)
                 ++ [lit "Scan complete! Found "
                     ++ str_of_nat (length (vst_usage s')) ++ lit " unique VSTs"]
             end
        else []).
Proof.
  intros s' files. subst s' files.
  rewrite scan_directory_unfold. cbv zeta.
  set (s0 := set_total_files _ _).
  assert (progress_callback s0 = progress_callback s) as Hb0.
  { unfold s0. simpl. by rewrite update_progress_callback. }
  assert (progress_log s0
          = progress_log s
            ++ (if progress_callback s then [lit "Finding .als files..."] else [])) as Hl0.
  { unfold s0. simpl. by rewrite update_progress_log. }
  clearbody s0.
  destruct (find_als_files directory) as [|f l].
  - rewrite update_progress_log, Hb0, Hl0.
    destruct (progress_callback s); rewrite <- app_assoc; [done |].
    by rewrite !app_nil_r.
  - set (files := f :: l). set (s1 := update_progress _ s0).
    rewrite update_progress_usage, update_progress_log.
    destruct (scan_files_frame files s1) as (_ & _ & _ & -> & ->).
    assert (progress_callback s1 = progress_callback s) as ->.
    { unfold s1. by rewrite update_progress_callback. }
    assert (progress_log s1
            = (progress_log s
               ++ (if progress_callback s then [lit "Finding .als files..."] else []))
              ++ (if progress_callback s
                  then [lit "Found " ++ str_of_nat (length files)
                        ++ lit " .als files. Starting scan..."]
                  else [])) as ->.
    { unfold s1. by rewrite update_progress_log, Hb0, Hl0. }
    destruct (progress_callback s); [| by rewrite !app_nil_r].
    by rewrite <- !app_assoc.
Qed.

(** ** The parser *)

(** X10. What [parse_als_file] returns is a rearrangement of [vsts_found]:
    the walk never lists a name twice and never lists the empty name, so
    the conversion to a set and back removes nothing. *)
Theorem parse_als_file_returns_found `{PF : Platform} `{FS : FileSystem}
    (file_path : str) (s : Auditor) :
  (parse_als_file file_path s).1 ≡ₚ found_in file_path
  ∧ NoDup (found_in file_path)
  ∧ [] ∉ found_in file_path.
Proof.
  assert (NoDup (found_in file_path)) as Hnd.
  { unfold found_in. destruct (read_xml file_path); [apply walk_NoDup | apply NoDup_nil_2]. }
  split; [| split; [done |]].
  - rewrite parse_als_file_list.
    apply NoDup_Permutation; [apply list_of_set_NoDup | done | apply list_of_set_elem].
  - unfold found_in. destruct (read_xml file_path) as [root|];
      [| apply not_elem_of_nil].
    intros Hin. unfold walk in Hin.
    apply visits_origin in Hin as [Hin | [Hne _]]; [by apply elem_of_nil in Hin | done].
Qed.

(** X11. Only a [BrowserContentPath] element changes the file-local
    manufacturer of a reference that has been found: the path heuristic is
    consulted for a reference once, where it first occurs. *)
Theorem path_heuristic_first_occurrence `{PF : Platform}
    (w : Walk) (e : Element) (vst : str) :
  vst ∈ vsts_found w →
  tag e ≠ lit "BrowserContentPath" →
  local_manufacturers (visit w e) !! vst = local_manufacturers w !! vst.
Proof.
  intros Hin Htag. unfold visit.
  rewrite note_plugin_info_local, note_browser_path_other_tag by done.
  rewrite note_attribs_table.
  - unfold note_text. destruct (text e); [by apply note_dll_table | done].
  - by apply note_text_extends.
Qed.

(** X12. Every key of the file-local table of a walk is one of the
    references that the walk found. *)
Theorem walk_table_within_found `{PF : Platform} (root : Element) (vst : str) :
  is_Some (local_manufacturers (walk root) !! vst) → vst ∈ vsts_found (walk root).
Proof. apply walk_within. Qed.

(** X13. A reference that is new to the mapping gets, from the file in
    which it is found, the manufacturer of the file-local table unless that
    is missing or empty, else the vendor of Rule B, else ["Unknown"]. *)
Theorem parse_als_file_resolves `{PF : Platform} `{FS : FileSystem}
    (file_path : str) (s : Auditor) (root : Element) (vst : str) :
  read_xml file_path = Some root →
  vst ∈ vsts_found (walk root) →
  vst_manufacturers s !! vst = None →
  vst_manufacturers (parse_als_file file_path s).2 !! vst
  = Some
      (let fallback := default (lit "Unknown") (get_manufacturer_from_plugin_name vst) in
       match local_manufacturers (walk root) !! vst with
       | Some manufacturer =>
           if decide (manufacturer = []) then fallback else manufacturer
       | None => fallback
       end).
Proof.
  intros Hroot Hin Hnew. rewrite parse_als_file_lookup, Hnew, Hroot.
  rewrite decide_True by done. f_equal. unfold resolved.
  assert (or_else (get_manufacturer_from_plugin_name vst) (lit "Unknown")
          = default (lit "Unknown") (get_manufacturer_from_plugin_name vst)) as ->.
  { destruct (get_manufacturer_from_plugin_name vst) as [v|] eqn:E; [| done].
    simpl. by rewrite (rule_B_truthy _ _ E). }
  destruct (local_manufacturers (walk root) !! vst) as [m|]; [| done].
  simpl. destruct m; [by rewrite decide_True | by rewrite decide_False].
Qed.

(** ** The heuristics *)

Section HeuristicFacts.
Import PyStr PyStrFacts.

Lemma forward_slashes_idem p : forward_slashes (forward_slashes p) = forward_slashes p.
Proof.
  unfold forward_slashes. rewrite <- list_fmap_compose. apply list_fmap_ext.
  intros _ c _. simpl. by destruct (c =? ord "\")%N eqn:E; [| rewrite E].
Qed.

Lemma forward_slashes_truthy p : truthy (forward_slashes p) = truthy p.
Proof. by destruct p. Qed.

Lemma lower_truthy `{PF : Platform} s : truthy (lower s) = truthy s.
Proof.
  destruct s as [|c s]; [by rewrite lower_nil |].
  destruct (lower (c :: s)) eqn:E; [| done]. by apply lower_nonempty in E.
Qed.

Lemma first_pattern_in_table table name vendor :
  first_pattern table name = Some vendor → ∃ pattern, (pattern, vendor) ∈ table.
Proof.
  induction table as [|[pattern v] table IH]; simpl; [done |].
  destruct (contains pattern name).
  - intros [= <-]. exists pattern. by left.
  - intros [p Hp]%IH. exists p. by right.
Qed.

End HeuristicFacts.

(** X14. Rule A does not depend on the style of the separators: a path
    written with backslashes and the same path written with slashes get
    the same answer. *)
Theorem extract_manufacturer_any_separator `{PF : Platform} (dll_path : str) :
  extract_manufacturer_from_path (forward_slashes dll_path)
  = extract_manufacturer_from_path dll_path.
Proof.
  unfold extract_manufacturer_from_path, path_parts_of.
  rewrite forward_slashes_truthy, !replace_backslash, forward_slashes_idem. done.
Qed.

(** X15. Rule B does not depend on the letter case of the name: two names
    that agree in lower case get the same vendor, and the answer, if any,
    is the vendor of an entry of the table. *)
Theorem get_manufacturer_ignores_case `{PF : Platform} (plugin_name other : str) :
  lower plugin_name = lower other →
  get_manufacturer_from_plugin_name plugin_name
  = get_manufacturer_from_plugin_name other
  ∧ ∀ vendor, get_manufacturer_from_plugin_name plugin_name = Some vendor →
              ∃ pattern, (pattern, vendor) ∈ manufacturer_patterns.
Proof.
  intros Hlower. split.
  - unfold get_manufacturer_from_plugin_name.
    rewrite <- (lower_truthy plugin_name), <- (lower_truthy other), Hlower. done.
  - intros vendor. unfold get_manufacturer_from_plugin_name.
    destruct (negb (PyStr.truthy plugin_name)); [done |].
    apply first_pattern_in_table.
Qed.

(** ** The sections of the report *)

Section ReportFacts.
Import OrdDict OrdDictFacts.

Lemma in_order_nil {A : Type} (R : A → A → Prop) : in_order R [].
Proof. intros i j a b _ Hi. by rewrite lookup_nil in Hi. Qed.

Lemma in_order_cons {A : Type} (R : A → A → Prop) x l :
  in_order R (x :: l) ↔ (∀ y, y ∈ l → R x y) ∧ in_order R l.
Proof.
  split.
  - intros H. split.
    + intros y [j Hj]%list_elem_of_lookup. apply (H 0 (S j)); [lia | done | done].
    + intros i j a b Hij Hi Hj. apply (H (S i) (S j)); [lia | done | done].
  - intros [Hx Hl] i j a b Hij Hi Hj.
    destruct j as [|j]; [lia |]. simpl in Hj.
    destruct i as [|i]; simpl in Hi.
    + injection Hi as <-. apply Hx. by eapply list_elem_of_lookup_2.
    + apply (Hl i j); [lia | done | done].
Qed.

Lemma insert_by_perm {A : Type} (le : A → A → bool) x l :
  insert_by le x l ≡ₚ x :: l.
Proof.
  induction l as [|y l IH]; simpl; [done |].
  destruct (le x y); [done |]. rewrite IH. apply Permutation_swap.
Qed.

Lemma sort_by_perm {A : Type} (le : A → A → bool) l : sort_by le l ≡ₚ l.
Proof.
  unfold sort_by. induction l as [|x l IH]; simpl; [done |].
  by rewrite insert_by_perm, IH.
Qed.

Lemma insert_by_in_order {A : Type} (le : A → A → bool) (R : A → A → Prop) x l :
  (∀ a b, le a b = true → R a b) →
  (∀ a b, le a b = false → R b a) →
  (∀ a b c, R a b → R b c → R a c) →
  in_order R l → in_order R (insert_by le x l).
Proof.
  intros Hle Hgt Htrans. induction l as [|y l IH]; simpl; intros Hl.
  - apply in_order_cons. split; [by intros ? ?%elem_of_nil | done].
  - destruct (le x y) eqn:E.
    + apply in_order_cons. split; [| done].
      apply in_order_cons in Hl as [Hy _].
      intros z [-> | Hz]%elem_of_cons; [by apply Hle |].
      apply Htrans with y; [by apply Hle | by apply Hy].
    + apply in_order_cons in Hl as [Hy Hl]. apply in_order_cons.
      split; [| by apply IH].
      intros z Hz. rewrite insert_by_perm in Hz.
      apply elem_of_cons in Hz as [-> | Hz]; [by apply Hgt | by apply Hy].
Qed.

Lemma sort_by_in_order {A : Type} (le : A → A → bool) (R : A → A → Prop) l :
  (∀ a b, le a b = true → R a b) →
  (∀ a b, le a b = false → R b a) →
  (∀ a b c, R a b → R b c → R a c) →
  in_order R (sort_by le l).
Proof.
  intros Hle Hgt Htrans. unfold sort_by.
  induction l as [|x l IH]; simpl; [apply in_order_nil |].
  by apply insert_by_in_order.
Qed.

(** Insertion keeps the entries of one count in the order they had. *)
Lemma insert_by_count_stable (x : str * nat) l c :
  filter (fun e : str * nat => e.2 = c)
         (insert_by (fun x y : str * nat => y.2 <=? x.2) x l)
  = filter (fun e : str * nat => e.2 = c) (x :: l).
Proof.
  induction l as [|y l IH]; simpl; [done |].
  destruct (y.2 <=? x.2) eqn:E; [done |].
  apply Nat.leb_gt in E.
  rewrite (filter_cons _ y), IH, !filter_cons.
  repeat case_decide; try done; lia.
Qed.

Lemma most_common_stable (usage : list (str * nat)) c :
  filter (fun e : str * nat => e.2 = c) (most_common usage)
  = filter (fun e : str * nat => e.2 = c) usage.
Proof.
  unfold most_common, sort_by. induction usage as [|x l IH]; simpl; [done |].
  rewrite insert_by_count_stable, !filter_cons, IH. done.
Qed.

Lemma groups_step (man : str → str) (cnt : str → nat)
    (d : list (str * list (str * nat))) vst m :
  default [] (get m (set (man vst) (default [] (get (man vst) d) ++ [(vst, cnt vst)]) d))
  = if decide (man vst = m)
    then default [] (get m d) ++ [(vst, cnt vst)]
    else default [] (get m d).
Proof. rewrite get_set. case_decide; [by subst | done]. Qed.

Lemma groups_fold (man : str → str) (cnt : str → nat) l
    (d : list (str * list (str * nat))) m x :
  x ∈ default [] (get m
        (fold_left (fun d vst =>
                      set (man vst) (default [] (get (man vst) d) ++ [(vst, cnt vst)]) d)
                   l d))
  ↔ x ∈ default [] (get m d) ∨ ∃ vst, vst ∈ l ∧ man vst = m ∧ x = (vst, cnt vst).
Proof.
  revert d; induction l as [|v l IH]; intros d; simpl.
  - split; [by left | intros [? | (? & ?%elem_of_nil & _)]; done].
  - rewrite IH, groups_step. split.
    + intros [Hx | (vst & Hin & Hm & ->)].
      * case_decide; [| by left].
        apply elem_of_app in Hx as [Hx | ->%list_elem_of_singleton]; [by left |].
        right. exists v. split; [by left | done].
      * right. exists vst. split; [by right | done].
    + intros [Hx | (vst & [-> | Hin]%elem_of_cons & Hm & ->)].
      * left. case_decide; [apply elem_of_app; by left | done].
      * left. rewrite decide_True by done. apply elem_of_app. right. by left.
      * right. eauto.
Qed.

Lemma groups_keys (man : str → str) (cnt : str → nat) l
    (d : list (str * list (str * nat))) m :
  m ∈ keys (fold_left (fun d vst =>
                         set (man vst) (default [] (get (man vst) d) ++ [(vst, cnt vst)]) d)
                      l d)
  ↔ m ∈ keys d ∨ ∃ vst, vst ∈ l ∧ man vst = m.
Proof.
  revert d; induction l as [|v l IH]; intros d; simpl.
  - split; [by left | intros [? | (? & ?%elem_of_nil & _)]; done].
  - rewrite IH, elem_of_keys_set. split.
    + intros [[-> | Hm] | (vst & Hin & Hm)]; [right | by left | right].
      * exists v. split; [by left | done].
      * exists vst. split; [by right | done].
    + intros [Hm | (vst & [-> | Hin]%elem_of_cons & Hm)]; [left; by right | |].
      * left. by left.
      * right. eauto.
Qed.

End ReportFacts.

(** X17. The grouping of the second section of the report puts every
    counted reference, with its count, under its manufacturer and nowhere
    else, and has no manufacturer without a reference. *)
Theorem by_manufacturer_groups (s : Auditor) (manufacturer vst : str) (count : nat) :
  ((vst, count) ∈ default [] (OrdDict.get manufacturer (by_manufacturer s))
   ↔ vst ∈ OrdDict.keys (vst_usage s)
     ∧ manufacturer_of s vst = manufacturer
     ∧ count = count_of vst (vst_usage s))
  ∧ (manufacturer ∈ OrdDict.keys (by_manufacturer s)
     ↔ ∃ other, other ∈ OrdDict.keys (vst_usage s)
                ∧ manufacturer_of s other = manufacturer).
Proof.
  unfold by_manufacturer. split.
  - rewrite (groups_fold (manufacturer_of s) (fun v => count_of v (vst_usage s))).
    simpl. split.
    + intros [?%elem_of_nil | (v & Hin & Hm & [= -> ->])]; done.
    + intros (Hin & Hm & ->). right. eauto.
  - rewrite (groups_keys (manufacturer_of s) (fun v => count_of v (vst_usage s))).
    split; [intros [?%elem_of_nil | ?]; done | by right].
Qed.

(** X18. The usage summary goes through the counter entries in an order
    that is a rearrangement of the counter with no entry before one of a
    larger count and with the entries of equal count in the order in which
    they were first counted; the alphabetical list goes through the
    counted references in a rearrangement in which no name comes before a
    smaller one. *)
Theorem report_orders (s : Auditor) :
  most_common (vst_usage s) ≡ₚ vst_usage s
  ∧ in_order (fun a b : str * nat => b.2 ≤ a.2) (most_common (vst_usage s))
  ∧ (∀ count,
       filter (fun e : str * nat => e.2 = count) (most_common (vst_usage s))
       = filter (fun e : str * nat => e.2 = count) (vst_usage s))
  ∧ sort_by PyStr.leb (OrdDict.keys (vst_usage s)) ≡ₚ OrdDict.keys (vst_usage s)
  ∧ in_order (fun a b => PyStr.leb a b = true)
             (sort_by PyStr.leb (OrdDict.keys (vst_usage s))).
Proof.
  split; [apply sort_by_perm |]. split.
  - apply sort_by_in_order.
    + intros a b H. by apply Nat.leb_le.
    + intros a b H. apply Nat.leb_gt in H. lia.
    + intros a b c ? ?. lia.
  - split; [intros count; apply most_common_stable |].
    split; [apply sort_by_perm |]. apply sort_by_in_order.
    + done.
    + intros a b H. destruct (PyStrFacts.leb_total a b) as [? | ?]; congruence.
    + apply PyStrFacts.leb_trans.
Qed.

(** ** The callers *)

Section CallerFacts.
Context `{PF : Platform} `{FS : FileSystem}.
Import OrdDict OrdDictFacts.



Lemma list_of_set_length l : NoDup l → length (list_of_set l) = length l.
Proof.
  intros Hnd. apply Permutation_length.
  apply NoDup_Permutation; [apply list_of_set_NoDup | done | apply list_of_set_elem].
Qed.

Lemma found_in_NoDup f : NoDup (found_in f).
Proof. unfold found_in. destruct (read_xml f); [apply walk_NoDup | apply NoDup_nil_2]. Qed.

Lemma sum_set (d : list (str * nat)) k v :
  sum_list (set k v d).*2 + default 0 (get k d) = sum_list d.*2 + v.
Proof.
  induction d as [|[k0 v0] d IH]; [simpl; lia |].
  cbn [set get]. case_decide; rewrite !fmap_cons; cbn [sum_list snd default];
    unfold id in *; lia.
Qed.

Lemma sum_set_increment (d : list (str * nat)) k :
  sum_list (set k (default 0 (get k d) + 1) d).*2 = sum_list d.*2 + 1.
Proof. pose proof (sum_set d k (default 0 (get k d) + 1)). lia. Qed.

Lemma sum_increments l (usage : list (str * nat)) :
  sum_list (fold_left increment l usage).*2 = sum_list usage.*2 + length l.
Proof.
  revert usage; induction l as [|x l IH]; intros usage; simpl; [lia |].
  rewrite IH. unfold increment, count_of. rewrite sum_set_increment. lia.
Qed.

Lemma scan_files_total files s :
  total_vst_instances (fold_left scan_file files s)
  = total_vst_instances s + sum_list ((fun f => length (found_in f)) <$> files).
Proof.
  unfold total_vst_instances.
  revert s; induction files as [|f files IH]; intros s; [simpl; lia |].
  cbn [fold_left]. rewrite IH, scan_file_usage, sum_increments.
  rewrite list_of_set_length by apply found_in_NoDup.
  rewrite fmap_cons. cbn [sum_list_with].
  change (id (length (found_in f))) with (length (found_in f)). lia.
Qed.

Lemma counts_fold (man : str → str) l (d : list (str * nat)) m :
  default 0 (get m (fold_left (fun d vst => set (man vst) (default 0 (get (man vst) d) + 1) d) l d))
  = default 0 (get m d) + length (filter (fun vst => man vst = m) l).
Proof.
  revert d; induction l as [|v l IH]; intros d; simpl; [lia |].
  rewrite IH, get_set, filter_cons.
  destruct (decide (man v = m)) as [-> | Hne]; simpl; lia.
Qed.

Lemma counts_sum (man : str → str) l (d : list (str * nat)) :
  sum_list (fold_left (fun d vst => set (man vst) (default 0 (get (man vst) d) + 1) d) l d).*2
  = sum_list d.*2 + length l.
Proof.
  revert d; induction l as [|v l IH]; intros d; simpl; [lia |].
  rewrite IH, sum_set_increment. lia.
Qed.

End CallerFacts.



(** X21. In the result window the number after each manufacturer is the
    number of counted references attributed to it, these numbers add up to
    the number of counted references, and the list of top plugins has 20
    entries, or all of them when there are fewer. *)
Theorem display_results_counts (auditor : Auditor) (manufacturer : str) :
  default 0 (OrdDict.get manufacturer (manufacturer_counts auditor))
  = length (filter (fun vst => manufacturer_of auditor vst = manufacturer)
                   (OrdDict.keys (vst_usage auditor)))
  ∧ sum_list (manufacturer_counts auditor).*2 = length (vst_usage auditor)
  ∧ length (top_vsts auditor) = 20 `min` length (vst_usage auditor).
Proof.
  unfold manufacturer_counts, top_vsts. split; [| split].
  - by rewrite (counts_fold (manufacturer_of auditor)).
  - rewrite (counts_sum (manufacturer_of auditor)). simpl.
    unfold OrdDict.keys. by rewrite length_fmap.
  - rewrite length_take. unfold most_common.
    by rewrite (Permutation_length (sort_by_perm _ _)).
Qed.

(** X22. In the project analysis of the example script the two numbers
    printed for a project are always equal: both are the number of
    distinct references that the walk found in the project. *)
Theorem example_project_analysis_counts `{PF : Platform} `{FS : FileSystem}
    (project_path : str) (vsts : list str) :
  let auditor := scan_directory (lit "ALS") init in
  (project_path, vsts) ∈ project_vsts auditor →
  project_lines auditor (project_path, vsts) !! 1
  = Some (lit "  Total VST instances: " ++ str_of_nat (length (found_in project_path)))
  ∧ project_lines auditor (project_path, vsts) !! 2
    = Some (lit "  Unique VSTs: " ++ str_of_nat (length (found_in project_path))).
Proof.
  intros auditor Hin. subst auditor.
  destruct (scan_directory_fields (lit "ALS") init)
    as (s1 & (_ & Hr & _) & _ & Heq & _).
  rewrite Heq in Hin.
  destruct (scan_files_registered (find_als_files (lit "ALS")) [] s1) as [_ Hreg].
  { rewrite Hr. split; [apply NoDup_nil_2 |].
    intros path l. split; [by intros ?%elem_of_nil |].
    by intros (?%elem_of_nil & _). }
  apply Hreg in Hin as (_ & -> & _). simpl.
  rewrite (list_of_set_length (list_of_set _)) by apply list_of_set_NoDup.
  by rewrite list_of_set_length by apply found_in_NoDup.
Qed.

(** X23. The total that the custom report of the example script calls the
    number of VST instances is, after a scan, the number of pairs of a
    project file and a distinct reference found in it; a reference used on
    several tracks of a project counts once. *)
Theorem total_vst_instances_after_scan `{PF : Platform} `{FS : FileSystem}
    (directory : str) (s : Auditor) :
  total_vst_instances (scan_directory directory s)
  = sum_list ((fun f => length (found_in f)) <$> find_als_files directory)
  ∧ (vst_usage (scan_directory (lit "ALS") init) = []
     ∨ example_custom_report !! 3
       = Some ((lit "Total VST instances across all projects: ")
               ++ str_of_nat
                     (sum_list ((fun f => length (found_in f))
                                <$> find_als_files (lit "ALS"))))).
Proof.
  assert (∀ d s0, total_vst_instances (scan_directory d s0)
                  = sum_list ((fun f => length (found_in f)) <$> find_als_files d))
    as Htotal.
  { intros d s0.
    destruct (scan_directory_fields d s0) as (s1 & (Hu & _) & Heq & _).
    unfold total_vst_instances at 1. rewrite Heq.
    pose proof (scan_files_total (find_als_files d) s1) as H.
    unfold total_vst_instances in H. rewrite H, Hu. simpl. lia. }
  split; [apply Htotal |].
  unfold example_custom_report.
  destruct (vst_usage (scan_directory (lit "ALS") init)); [by left | right].
  simpl. by rewrite Htotal.
Qed.

(** ** The further properties at work *)

Lemma scan_directory_manufacturers_named_witness : (lit "CompanyX") ≠ [].
Proof.
  apply (@scan_directory_manufacturers_named posix studio (lit "projects") init)
    with (vst := lit "Widget.dll").
  - intros vst manufacturer H. vm_compute in H. discriminate.
  - vm_compute. reflexivity.
Defined.

Lemma path_heuristic_first_occurrence_witness :
  local_manufacturers
    (@visit posix
       (@note_text posix (Elem (lit "Path") (Some (lit "Old Vendor/Serum.dll")) [] []) empty_walk)
       (Elem (lit "Path") (Some (lit "New Vendor/Serum.dll")) [] []))
  !! (lit "Serum.dll") = Some (lit "Old Vendor").
Proof.
  rewrite (@path_heuristic_first_occurrence posix).
  - vm_compute. reflexivity.
  - vm_compute. left.
  - vm_compute. discriminate.
Defined.

Lemma walk_table_within_found_witness :
  (lit "Serum.dll") ∈ vsts_found (@walk posix serum_project).
Proof.
  apply (@walk_table_within_found posix serum_project (lit "Serum.dll")).
  exists (lit "Xfer Records"). vm_compute. reflexivity.
Defined.

Lemma parse_als_file_resolves_witness :
  vst_manufacturers (@parse_als_file posix studio (lit "projects/one.als") init).2
  !! (lit "Widget.dll") = Some (lit "CompanyX").
Proof.
  rewrite (@parse_als_file_resolves posix studio (lit "projects/one.als") init
             widget_twice (lit "Widget.dll")).
  - vm_compute. reflexivity.
  - vm_compute. reflexivity.
  - vm_compute. left.
  - vm_compute. reflexivity.
Defined.

Lemma get_manufacturer_ignores_case_witness :
  @get_manufacturer_from_plugin_name posix (lit "TAL-Reverb-4")
  = @get_manufacturer_from_plugin_name posix (lit "tal-reverb-4").
Proof.
  apply (@get_manufacturer_ignores_case posix
           (lit "TAL-Reverb-4") (lit "tal-reverb-4")).
  vm_compute. reflexivity.
Defined.


Lemma scan_directory_without_files_witness :
  vst_usage (@scan_directory posix studio (lit "empty") used_auditor) = []
  ∧ vst_manufacturers (@scan_directory posix studio (lit "empty") used_auditor)
    = vst_manufacturers used_auditor.
Proof.
  destruct (@scan_directory_without_files posix studio (lit "empty") used_auditor)
    as (_ & _ & _ & _ & _ & Hnone).
  destruct Hnone as (Hu & _ & _ & _ & Hm); [vm_compute; reflexivity |].
  split; [exact Hu | exact Hm].
Defined.

Lemma example_project_analysis_counts_witness :
  @project_lines posix (@scan_directory posix als_disk (lit "ALS") init)
    (lit "ALS/one.als", [lit "Widget.dll"]) !! 2
  = Some ((lit "  Unique VSTs: ")
          ++ str_of_nat (length (@found_in posix als_disk (lit "ALS/one.als")))).
Proof.
  apply (@example_project_analysis_counts posix als_disk (lit "ALS/one.als") [lit "Widget.dll"]).
  vm_compute. left.
Defined.

Example command_line_on_the_studio :
  @main posix studio (writable [lit "report.txt"]) (lit "2024-05-01 12:00:00")
    {| cli := true; directory := Some (lit "empty"); output := lit "report.txt" |}
  = Some {| exit_code := 0; written := None |}
  ∧ @main posix studio (writable [lit "report.txt"]) (lit "2024-05-01 12:00:00")
      {| cli := true; directory := None; output := lit "report.txt" |}
    = Some {| exit_code := 1; written := None |}
  ∧ @main posix studio (writable [lit "report.txt"]) (lit "2024-05-01 12:00:00")
      {| cli := true; directory := Some (lit "projects");
         output := lit "/nowhere/report.txt" |}
    = Some {| exit_code := 1; written := None |}.
Proof. vm_compute. done. Qed.

(** The heuristics on text that is not ASCII: the length of a folder name
    is counted in characters, and a no-break space is stripped. *)
Example rule_A_counts_characters :
  @extract_manufacturer_from_path posix [233; 233; 47; 80; 46; 100; 108; 108]%N = None
  ∧ @extract_manufacturer_from_path posix
      ([160%N] ++ lit "Acme" ++ [160%N] ++ lit "/x.dll")
    = Some (lit "Acme").
Proof. vm_compute. done. Qed.

Example example_project_analysis_on_disk :
  @example_project_analysis posix als_disk
  = [ nl ++ lit "=== Project Analysis Example ===";
      (lit "Project VST Usage:");
      nl ++ lit "one.als:";
      (lit "  Total VST instances: 1");
      (lit "  Unique VSTs: 1");
      (lit "  Manufacturers: CompanyX") ].
Proof. vm_compute. reflexivity. Qed.

Example progress_on_the_studio :
  progress_log (@scan_directory posix studio (lit "projects") (set_progress_callback true init))
  = [ lit "Finding .als files...";
      (lit "Found 3 .als files. Starting scan...");
      (lit "Processing: one.als");
      (lit "Processing: broken.als");
      (lit "Processing: two.ALS");
      (lit "Scan complete! Found 1 unique VSTs") ].
Proof. vm_compute. reflexivity. Qed.
